(** * hashcache: a sharded key-value cache over unbalanced binary search trees

    Shallow embedding of [hashcache.cc] and of the second copy of the same
    program that the repository holds, which differs from it in the eviction
    trigger of [Cache::put] (and in the size of its test program).

    Conventions of the embedding:
    - the key type [K] is [long], as in the only instantiation of the
      templates ([Cache<long, shared_ptr<Element>>]); a [long] is a [Z], and
      the one place where the program does arithmetic on a [long] (the atomic
      size counter) has its two's-complement wrap-around written out;
    - a [HashTree*] is a value of the inductive type [HashTree]: [nullptr] is
      the null pointer, [Node k v l r] a pointer to a node with these fields.
      Every node is owned by exactly one parent, so in-place updates of
      [m_left], [m_right], [m_key] and [m_val] are rebuilt nodes;
    - an out-parameter [V& val] is an argument (the caller's value on entry)
      and a component of the result (the caller's value on exit);
    - the wall clock read by [Cache::put] is an argument [now];
    - dereferencing a null pointer is the outcome [NullDeref], and reaching
      the closing brace of a function that has to return a value, without a
      [return] statement, is the outcome [FlowsOffEnd]: both are undefined
      behaviour, after which nothing is said about the program;
    - locks are not modelled: all statements are about sequential executions;
      the diagnostics written to [cout] are not part of the state. *)

From Stdlib Require Import ZArith Lia Sorted.
From stdpp Require Import base list.

Set Default Proof Using "Type".
Local Open Scope Z_scope.

(* ===================================================================== *)
(** ** HashTree: the binary search tree of one partition *)
(* ===================================================================== *)

Module HashTree.

Inductive HashTree (V : Type) : Type :=
| nullptr
| Node (m_key : Z) (m_val : V) (m_left m_right : HashTree V).

Arguments nullptr {V}.
Arguments Node {V} m_key m_val m_left m_right.

Section Operations.
Context {V : Type}.

(** [HashTree::insertNode]: the new leaf goes left when [root->m_key >= key],
    right otherwise; an equal key is not treated apart. *)
Fixpoint insertNode (root : HashTree V) (key : Z) (val : V) : HashTree V :=
  match root with
  | nullptr => Node key val nullptr nullptr
  | Node m_key m_val m_left m_right =>
      if m_key >=? key
      then Node m_key m_val (insertNode m_left key val) m_right
      else Node m_key m_val m_left (insertNode m_right key val)
  end.

(** [HashTree::getVal]: the result pairs the returned [bool] with the
    out-parameter, which is written only when the key is found. *)
Fixpoint getVal (root : HashTree V) (key : Z) (val : V) : bool * V :=
  match root with
  | nullptr => (false, val)
  | Node m_key m_val m_left m_right =>
      if m_key =? key then (true, m_val)
      else if m_key >? key then getVal m_left key val
      else getVal m_right key val
  end.

(** [HashTree::getSmallestNode]: follow [m_left] while it is not null. *)
Fixpoint getSmallestNode (root : HashTree V) : HashTree V :=
  match root with
  | nullptr => nullptr
  | Node _ _ m_left _ =>
      match m_left with
      | nullptr => root
      | Node _ _ _ _ => getSmallestNode m_left
      end
  end.

(** [HashTree::remove].  In the two-children case [inOrderSuccessor] is the
    result of [getSmallestNode] on a non-null tree, hence never null (lemma
    [getSmallestNode_Node]); the branch for a null successor is there only
    to make the match total. *)
Fixpoint remove (root : HashTree V) (key : Z) : HashTree V :=
  match root with
  | nullptr => nullptr
  | Node m_key m_val m_left m_right =>
      if m_key >? key then Node m_key m_val (remove m_left key) m_right
      else if m_key <? key then Node m_key m_val m_left (remove m_right key)
      else
        match m_left with
        | nullptr => m_right
        | Node _ _ _ _ =>
            match m_right with
            | nullptr => m_left
            | Node _ _ _ _ =>
                match getSmallestNode m_right with
                | Node s_key s_val _ _ =>
                    Node s_key s_val m_left (remove m_right s_key)
                | nullptr => root
                end
            end
        end
  end.

(** [HashTree::seekWithComparator]: both subtrees are searched, then the
    comparator is applied to the two results and to the node itself. *)
Fixpoint seekWithComparator (root : HashTree V)
    (comparator : HashTree V -> HashTree V -> HashTree V) : HashTree V :=
  match root with
  | nullptr => nullptr
  | Node _ _ m_left m_right =>
      let left := seekWithComparator m_left comparator in
      let right := seekWithComparator m_right comparator in
      comparator (comparator left right) root
  end.

(** The same traversal, with the log of the nodes it is called on (in call
    order) and the number of comparator calls. *)
Fixpoint seekWithComparator_log (root : HashTree V)
    (comparator : HashTree V -> HashTree V -> HashTree V)
    : HashTree V * (list (HashTree V) * nat) :=
  match root with
  | nullptr => (nullptr, ([], 0%nat))
  | Node _ _ m_left m_right =>
      let '(left_, (vl, cl)) := seekWithComparator_log m_left comparator in
      let '(right_, (vr, cr)) := seekWithComparator_log m_right comparator in
      (comparator (comparator left_ right_) root,
       (root :: vl ++ vr, (cl + cr + 2)%nat))
  end.

(** *** Observations on trees used in the statements *)

(** The node at which the descent of [getVal] stops: the first node on the
    search path of [key] that carries [key], or null. *)
Fixpoint getNode (root : HashTree V) (key : Z) : HashTree V :=
  match root with
  | nullptr => nullptr
  | Node m_key _ m_left m_right =>
      if m_key =? key then root
      else if m_key >? key then getNode m_left key
      else getNode m_right key
  end.

(** Entries in in-order (left subtree, node, right subtree). *)
Fixpoint elements (t : HashTree V) : list (Z * V) :=
  match t with
  | nullptr => []
  | Node k v l r => elements l ++ (k, v) :: elements r
  end.

Definition keys (t : HashTree V) : list Z := (elements t).*1.

(** Number of nodes. *)
Fixpoint count (t : HashTree V) : nat :=
  match t with
  | nullptr => 0
  | Node _ _ l r => S (count l + count r)
  end.

(** The nodes of a tree (the pointers reachable from the root), root first. *)
Fixpoint nodes (t : HashTree V) : list (HashTree V) :=
  match t with
  | nullptr => []
  | Node _ _ l r => t :: nodes l ++ nodes r
  end.

(** The ordering invariant as the specification words it: keys of the left
    subtree are less-or-equal, keys of the right subtree strictly greater. *)
Fixpoint ordered (t : HashTree V) : Prop :=
  match t with
  | nullptr => True
  | Node k _ l r =>
      Forall (fun x => x <= k) (keys l) /\ Forall (fun x => k < x) (keys r)
      /\ ordered l /\ ordered r
  end.

(** The ordering both sides of which are weak: what deletion keeps when a
    key occurs more than once. *)
Fixpoint weakly_ordered (t : HashTree V) : Prop :=
  match t with
  | nullptr => True
  | Node k _ l r =>
      Forall (fun x => x <= k) (keys l) /\ Forall (fun x => k <= x) (keys r)
      /\ weakly_ordered l /\ weakly_ordered r
  end.

(** The ordering both sides of which are strict: a search tree without
    repeated keys. *)
Fixpoint strictly_ordered (t : HashTree V) : Prop :=
  match t with
  | nullptr => True
  | Node k _ l r =>
      Forall (fun x => x < k) (keys l) /\ Forall (fun x => k < x) (keys r)
      /\ strictly_ordered l /\ strictly_ordered r
  end.

(** Boolean versions, for evaluation on concrete trees. *)
Fixpoint orderedb (t : HashTree V) : bool :=
  match t with
  | nullptr => true
  | Node k _ l r =>
      forallb (fun x => x <=? k) (keys l) && forallb (fun x => k <? x) (keys r)
      && orderedb l && orderedb r
  end.

End Operations.

End HashTree.

(* ===================================================================== *)
(** ** Cache: the array of partitions, the size counter and eviction *)
(* ===================================================================== *)

(** Results of code that may run into undefined behaviour: a null pointer
    dereferenced, or the end of a value-returning function reached without a
    [return] statement. *)
Inductive outcome (A : Type) : Type :=
| Returns (a : A)
| NullDeref
| FlowsOffEnd.

Arguments Returns {A} a.
Arguments NullDeref {A}.
Arguments FlowsOffEnd {A}.

Definition bind {A B : Type} (m : outcome A) (f : A -> outcome B) : outcome B :=
  match m with
  | Returns a => f a
  | NullDeref => NullDeref
  | FlowsOffEnd => FlowsOffEnd
  end.

Notation "'let*' x ':=' m 'in' k" := (bind m (fun x => k))
  (at level 10, x name, m at level 100, k at level 200).

(** The value of a [long] after an arithmetic operation: [std::atomic<long>]
    arithmetic is two's complement and wraps. *)
Definition wrap_long (x : Z) : Z := (x + 2 ^ 63) mod 2 ^ 64 - 2 ^ 63.

Module Cache.
Import HashTree.

(** The state of a [Cache<long, V>]: the array [buckets] and the counter
    [cacheSize].  An entry of a bucket is a [pair<V, long>]: the value and the
    timestamp of the write. *)
Record Cache (V : Type) : Type := mkCache {
  buckets : list (HashTree (V * Z));
  cacheSize : Z
}.

Arguments mkCache {V} buckets cacheSize.
Arguments buckets {V} c.
Arguments cacheSize {V} c.

Section Cache.
Context {V : Type}.

(** [V()], the value of a default-constructed [V]. *)
Variable V_default : V.

(** The constants [NUM_BUCKETS] and [CACHE_SIZE] (both 1024 in the source)
    and [std::hash<K>::operator()], whose result is a [size_t].  The bucket
    count is taken positive and within [int] wherever a statement needs it. *)
Variable NUM_BUCKETS : nat.
Variable CACHE_SIZE : Z.
Variable hashVal : Z -> Z.

Definition hashFunc (key : Z) : nat :=
  Z.to_nat (hashVal key mod Z.of_nat NUM_BUCKETS).

(** [buckets[i]]. *)
Definition bucket_at (c : Cache V) (i : nat) : HashTree (V * Z) :=
  default nullptr (buckets c !! i).

(** The constructor: every bucket null, the counter zero. *)
Definition init : Cache V :=
  mkCache (replicate NUM_BUCKETS nullptr) 0.

(** [Cache::get].  [valWrapper] is a default-constructed pair; its first
    component is copied to the out-parameter whatever [getVal] returns. *)
Definition get (c : Cache V) (key : Z) (val : V) : bool * V :=
  let hashVal := hashFunc key in
  let bucket := bucket_at c hashVal in
  let valWrapper := (V_default, 0) in
  let '(ret, valWrapper) := getVal bucket key valWrapper in
  (ret, valWrapper.1).

(** [Cache::remove]: the counter is decremented and [true] returned on every
    path. *)
Definition remove (c : Cache V) (key : Z) : bool * Cache V :=
  let hashVal := hashFunc key in
  let bucket := bucket_at c hashVal in
  (true,
   mkCache (<[hashVal := HashTree.remove bucket key]> (buckets c))
           (wrap_long (cacheSize c - 1))).

(** The lambda [func] of [Cache::removeLRU]: the older of two nodes, a null
    pointer losing against anything. *)
Definition func (left right : HashTree (V * Z)) : HashTree (V * Z) :=
  match left with
  | nullptr => right
  | Node _ lval _ _ =>
      match right with
      | nullptr => left
      | Node _ rval _ _ => if lval.2 <? rval.2 then left else right
      end
  end.

(** One iteration of the loop of [Cache::removeLRU] over the buckets. *)
Definition removeLRU_iter (c : Cache V) (oldest : HashTree (V * Z)) (i : nat)
    : HashTree (V * Z) :=
  let bucket := bucket_at c i in
  let currentOldest := seekWithComparator bucket func in
  match currentOldest with
  | nullptr => oldest
  | Node _ cval _ _ =>
      match oldest with
      | nullptr => currentOldest
      | Node _ oval _ _ => if cval.2 <? oval.2 then currentOldest else oldest
      end
  end.

(** The value of [oldest] after the loop [for (i = 0; i < NUM_BUCKETS; i++)]. *)
Definition removeLRU_scan (c : Cache V) : HashTree (V * Z) :=
  fold_left (removeLRU_iter c) (seq 0 NUM_BUCKETS) nullptr.

(** [Cache::removeLRU].  After the loop [oldest->m_key] is read without a null
    check.  When [oldest] is not null, [remove(oldest->m_key)] is called and
    control then reaches the closing brace: the function is declared [bool]
    and has no [return] statement, so the call never returns a value.
    ([remove] receives a reference to the key field of the node [oldest];
    [HashTree::remove] reads its key argument only before it overwrites or
    frees a node, so the key is passed by value here.) *)
Definition removeLRU (c : Cache V) : outcome (Cache V) :=
  match removeLRU_scan c with
  | nullptr => NullDeref
  | Node m_key _ _ _ =>
      let removed := remove c m_key in
      FlowsOffEnd
  end.

(** [Cache::put] of [hashcache.cc]: [fetch_add] returns the counter before
    the increment, and eviction runs when that value is [>= CACHE_SIZE]. *)
Definition put (c : Cache V) (key : Z) (val : V) (now : Z)
    : outcome (bool * Cache V) :=
  let before := cacheSize c in
  let c := mkCache (buckets c) (wrap_long (before + 1)) in
  let* c := (if before >=? CACHE_SIZE then removeLRU c else Returns c) in
  let hashVal := hashFunc key in
  let bucket := bucket_at c hashVal in
  Returns (true,
           mkCache (<[hashVal := insertNode bucket key (val, now)]> (buckets c))
                   (cacheSize c)).

(** [Cache::put] of the second copy of the program: the same, except that
    eviction runs when the counter before the increment is [> CACHE_SIZE]. *)
Definition put_second_copy (c : Cache V) (key : Z) (val : V) (now : Z)
    : outcome (bool * Cache V) :=
  let before := cacheSize c in
  let c := mkCache (buckets c) (wrap_long (before + 1)) in
  let* c := (if before >? CACHE_SIZE then removeLRU c else Returns c) in
  let hashVal := hashFunc key in
  let bucket := bucket_at c hashVal in
  Returns (true,
           mkCache (<[hashVal := insertNode bucket key (val, now)]> (buckets c))
                   (cacheSize c)).

(** A sequence of [put] calls, each with its timestamp. *)
Fixpoint put_all (c : Cache V) (writes : list (Z * (V * Z))) : outcome (Cache V) :=
  match writes with
  | [] => Returns c
  | (key, (val, now)) :: rest =>
      let* r := put c key val now in put_all r.2 rest
  end.

Fixpoint put_all_second_copy (c : Cache V) (writes : list (Z * (V * Z)))
    : outcome (Cache V) :=
  match writes with
  | [] => Returns c
  | (key, (val, now)) :: rest =>
      let* r := put_second_copy c key val now in put_all_second_copy r.2 rest
  end.

(** *** Observations on cache states *)

(** [n->m_val.second] of a node. *)
Definition timestamp (n : HashTree (V * Z)) : Z :=
  match n with
  | nullptr => 0
  | Node _ m_val _ _ => m_val.2
  end.

(** [s] is null when there is no node in [ns], and otherwise one of the nodes
    of [ns] whose timestamp is least. *)
Definition oldest_of (s : HashTree (V * Z)) (ns : list (HashTree (V * Z))) : Prop :=
  (s = nullptr /\ forall n, n ∉ ns) \/
  (s <> nullptr /\ s ∈ ns /\ forall n, n ∈ ns -> timestamp s <= timestamp n).

(** The nodes of all buckets, bucket after bucket. *)
Definition all_nodes (c : Cache V) : list (HashTree (V * Z)) :=
  mjoin ((fun i => nodes (bucket_at c i)) <$> seq 0 NUM_BUCKETS).

(** The true number of entries: the nodes of all buckets. *)
Definition entry_count (c : Cache V) : nat :=
  sum_list (count <$> buckets c).

(** An entry is stored when it is a node of the bucket its key hashes to. *)
Definition stored (c : Cache V) (key : Z) (e : V * Z) : Prop :=
  (key, e) ∈ elements (bucket_at c (hashFunc key)).

(** Every bucket exists, is a search tree without repeated keys and holds
    only keys that hash to it. *)
Definition well_formed (c : Cache V) : Prop :=
  length (buckets c) = NUM_BUCKETS /\
  forall i, (i < NUM_BUCKETS)%nat ->
    strictly_ordered (bucket_at c i) /\
    Forall (fun k => hashFunc k = i) (keys (bucket_at c i)).

(** Every bucket exists and is weakly ordered: the invariant that every
    reachable state has, repeated keys or not. *)
Definition weakly_formed (c : Cache V) : Prop :=
  length (buckets c) = NUM_BUCKETS /\
  forall i, (i < NUM_BUCKETS)%nat -> weakly_ordered (bucket_at c i).

(** *** Sequential clients *)

(** A call of one of the three operations a client has; a [Put] carries the
    time the clock shows when the call reads it. *)
Inductive call : Type :=
| Put (key : Z) (val : V) (now : Z)
| Remove (key : Z)
| Get (key : Z).

(** The state a call leaves ([get] changes nothing). *)
Definition step (c : Cache V) (op : call) : outcome (Cache V) :=
  match op with
  | Put key val now => let* r := put c key val now in Returns r.2
  | Remove key => Returns (remove c key).2
  | Get key => Returns c
  end.

(** A sequence of calls, one after the other. *)
Fixpoint run (c : Cache V) (ops : list call) : outcome (Cache V) :=
  match ops with
  | [] => Returns c
  | op :: rest => let* c' := step c op in run c' rest
  end.

(** Every key sits in the bucket it hashes to. *)
Definition routed (c : Cache V) : Prop :=
  forall i, (i < NUM_BUCKETS)%nat ->
    Forall (fun k => hashFunc k = i) (keys (bucket_at c i)).

(** What sequential use keeps: the buckets exist and are weakly ordered, the
    keys are routed, and the counter is at most the capacity and at most the
    number of entries. *)
Definition consistent (c : Cache V) : Prop :=
  weakly_formed c /\ routed c
  /\ cacheSize c <= CACHE_SIZE
  /\ cacheSize c <= Z.of_nat (entry_count c).

End Cache.
End Cache.

(* ===================================================================== *)
(** ** Concrete configurations *)
(* ===================================================================== *)

Module Reference.
Import HashTree Cache.

(** The configuration of the source: 1024 buckets, capacity 1024, values of
    type [long] (default 0), and the identity hash of libstdc++ (the key
    converted to [size_t]). *)
Definition NUM_BUCKETS : nat := 1024.
Definition CACHE_SIZE : Z := 1024.
Definition hashVal (key : Z) : Z := key mod 2 ^ 64.

Definition init : Cache Z := Cache.init NUM_BUCKETS.
Definition get := @Cache.get Z 0 NUM_BUCKETS hashVal.
Definition put := @Cache.put Z NUM_BUCKETS CACHE_SIZE hashVal.
Definition put_second_copy := @Cache.put_second_copy Z NUM_BUCKETS CACHE_SIZE hashVal.
Definition remove := @Cache.remove Z NUM_BUCKETS hashVal.
Definition removeLRU := @Cache.removeLRU Z NUM_BUCKETS hashVal.
Definition put_all := @Cache.put_all Z NUM_BUCKETS CACHE_SIZE hashVal.
Definition put_all_second_copy :=
  @Cache.put_all_second_copy Z NUM_BUCKETS CACHE_SIZE hashVal.
Definition entry_count := @Cache.entry_count Z.
Definition bucket_at := @Cache.bucket_at Z.

(** [CACHE_SIZE] writes of the keys 0 .. 1023, each with its key as value and
    as timestamp. *)
Definition fill : list (Z * (Z * Z)) :=
  (fun i => (Z.of_nat i, (Z.of_nat i, Z.of_nat i))) <$> seq 0 1024.

(** Four writes that land in bucket 0, the last two of the same key. *)
Definition repeated_key : list (Z * (Z * Z)) :=
  [(1024, (10, 1)); (0, (20, 2)); (5120, (30, 3)); (5120, (40, 4))].

End Reference.

Module Scenario.
Import HashTree Cache.

(** The scenario of the specification: one bucket, capacity 4, the keys
    1 .. 5 written at the timestamps 1 .. 5. *)
Definition NUM_BUCKETS : nat := 1.
Definition CACHE_SIZE : Z := 4.

Definition init : Cache Z := Cache.init NUM_BUCKETS.
Definition get := @Cache.get Z 0 NUM_BUCKETS Reference.hashVal.
Definition put_all := @Cache.put_all Z NUM_BUCKETS CACHE_SIZE Reference.hashVal.
Definition put := @Cache.put Z NUM_BUCKETS CACHE_SIZE Reference.hashVal.
Definition remove := @Cache.remove Z NUM_BUCKETS Reference.hashVal.
Definition removeLRU := @Cache.removeLRU Z NUM_BUCKETS Reference.hashVal.
Definition run := @Cache.run Z NUM_BUCKETS CACHE_SIZE Reference.hashVal.
Definition stored := @Cache.stored Z NUM_BUCKETS Reference.hashVal.
Definition well_formed := @Cache.well_formed Z NUM_BUCKETS Reference.hashVal.
Definition consistent := @Cache.consistent Z NUM_BUCKETS CACHE_SIZE Reference.hashVal.

(** A tree with a repeated key: 5, 2, 8, 8 and 9 inserted in this order. *)
Definition sample_tree : HashTree Z :=
  insertNode (insertNode (insertNode (insertNode (insertNode nullptr
    5 50) 2 20) 8 80) 8 81) 9 90.

(** A tree without repeated keys: 5, 2, 8, 7 and 9 inserted in this order. *)
Definition sample_tree_unique : HashTree Z :=
  insertNode (insertNode (insertNode (insertNode (insertNode nullptr
    5 50) 2 20) 8 80) 7 70) 9 90.

(** The cache after the first four writes of the scenario. *)
Definition full : Cache Z :=
  match put_all init [(1, (10, 1)); (2, (20, 2)); (3, (30, 3)); (4, (40, 4))] with
  | Returns c => c
  | _ => init
  end.

Definition writes : list (Z * (Z * Z)) :=
  [(1, (10, 1)); (2, (20, 2)); (3, (30, 3)); (4, (40, 4)); (5, (50, 5))].

End Scenario.

(* ===================================================================== *)
(** ** Facts about HashTree *)
(* ===================================================================== *)

Section HashTreeFacts.
Import HashTree.
Context {V : Type}.
Implicit Types (t l r : HashTree V) (k key : Z) (v : V).

Lemma keys_Node k v l r : keys (Node k v l r) = keys l ++ k :: keys r.
Proof. unfold keys. simpl. by rewrite fmap_app. Qed.

Lemma elem_of_keys t k : k ∈ keys t <-> exists v, (k, v) ∈ elements t.
Proof.
  unfold keys. rewrite list_elem_of_fmap. split.
  - intros [[k' v] [-> H]]. by exists v.
  - intros [v H]. by exists (k, v).
Qed.

Lemma not_elem_of_keys_Node k x v l r :
  k ∉ keys (Node x v l r) <-> (k ∉ keys l) /\ k <> x /\ (k ∉ keys r).
Proof. rewrite keys_Node, elem_of_app, elem_of_cons. tauto. Qed.

Lemma elem_of_elements_keys t k v : (k, v) ∈ elements t -> k ∈ keys t.
Proof. intros H. apply elem_of_keys. eauto. Qed.

(** *** insertNode *)

Lemma elements_insertNode t k v :
  elements (insertNode t k v) ≡ₚ (k, v) :: elements t.
Proof.
  induction t as [|x w l IHl r IHr]; simpl; [done|].
  destruct (x >=? k); simpl.
  - by rewrite IHl.
  - rewrite IHr. by rewrite Permutation_middle, (Permutation_swap (x, w)), <- !Permutation_middle.
Qed.

Lemma keys_insertNode t k v : keys (insertNode t k v) ≡ₚ k :: keys t.
Proof. unfold keys. by rewrite elements_insertNode. Qed.

Lemma count_elements t : count t = length (elements t).
Proof.
  induction t as [|x w l IHl r IHr]; simpl; [done|].
  rewrite length_app. simpl. lia.
Qed.

Lemma count_insertNode t k v : count (insertNode t k v) = S (count t).
Proof. by rewrite !count_elements, elements_insertNode. Qed.

Lemma ordered_insertNode t k v : ordered t -> ordered (insertNode t k v).
Proof.
  induction t as [|x w l IHl r IHr]; simpl.
  - intros _. repeat split; by constructor.
  - intros (Hl & Hr & Ol & Or).
    destruct (Z.geb_spec x k); simpl; repeat split; auto.
    + rewrite keys_insertNode. constructor; [lia|done].
    + rewrite keys_insertNode. constructor; [lia|done].
Qed.

Lemma weakly_ordered_insertNode t k v :
  weakly_ordered t -> weakly_ordered (insertNode t k v).
Proof.
  induction t as [|x w l IHl r IHr]; simpl.
  - intros _. repeat split; by constructor.
  - intros (Hl & Hr & Ol & Or).
    destruct (Z.geb_spec x k); simpl; repeat split; auto.
    + rewrite keys_insertNode. constructor; [lia|done].
    + rewrite keys_insertNode. constructor; [lia|done].
Qed.

Lemma strictly_ordered_insertNode t k v :
  strictly_ordered t -> k ∉ keys t -> strictly_ordered (insertNode t k v).
Proof.
  induction t as [|x w l IHl r IHr]; simpl.
  - intros _ _. repeat split; by constructor.
  - intros (Hl & Hr & Ol & Or) (Hkl & Hkx & Hkr)%not_elem_of_keys_Node.
    destruct (Z.geb_spec x k); simpl; repeat split; auto.
    + rewrite keys_insertNode. constructor; [lia|done].
    + rewrite keys_insertNode. constructor; [lia|done].
Qed.

(** *** getVal *)

Lemma getVal_absent t k (d : V) : k ∉ keys t -> getVal t k d = (false, d).
Proof.
  induction t as [|x w l IHl r IHr]; simpl; [done|].
  intros (Hkl & Hkx & Hkr)%not_elem_of_keys_Node.
  destruct (Z.eqb_spec x k) as [->|Hne]; [done|].
  destruct (x >? k); auto.
Qed.

Lemma getVal_found t k (d e : V) :
  getVal t k d = (true, e) -> (k, e) ∈ elements t.
Proof.
  induction t as [|x w l IHl r IHr]; simpl; [done|].
  rewrite elem_of_app, elem_of_cons.
  destruct (Z.eqb_spec x k) as [->|Hne]; [intros [= ->]; auto|].
  destruct (x >? k); auto.
Qed.

Lemma getVal_not_found t k (d : V) :
  (getVal t k d).1 = false -> getVal t k d = (false, d).
Proof.
  induction t as [|x w l IHl r IHr]; simpl; [done|].
  destruct (x =? k); [done|]. destruct (x >? k); auto.
Qed.

Lemma getVal_present t k (d e : V) :
  strictly_ordered t -> (k, e) ∈ elements t -> getVal t k d = (true, e).
Proof.
  induction t as [|x w l IHl r IHr]; simpl; [by rewrite elem_of_nil|].
  intros (Hl & Hr & Ol & Or). rewrite elem_of_app, elem_of_cons.
  rewrite Forall_forall in Hl, Hr.
  intros [H|[H|H]].
  - pose proof (Hl _ (elem_of_elements_keys _ _ _ H)).
    destruct (Z.eqb_spec x k); [lia|]. destruct (Z.gtb_spec x k); [auto|lia].
  - injection H as -> ->. by rewrite Z.eqb_refl.
  - pose proof (Hr _ (elem_of_elements_keys _ _ _ H)).
    destruct (Z.eqb_spec x k); [lia|]. destruct (Z.gtb_spec x k); [lia|auto].
Qed.

Lemma getVal_weakly_ordered t k (d : V) :
  weakly_ordered t -> k ∈ keys t -> (getVal t k d).1 = true.
Proof.
  induction t as [|x w l IHl r IHr]; simpl; [by rewrite elem_of_nil|].
  intros (Hl & Hr & Ol & Or). rewrite keys_Node, elem_of_app, elem_of_cons.
  rewrite Forall_forall in Hl, Hr.
  destruct (Z.eqb_spec x k); [done|].
  intros [H|[H|H]]; [|congruence|].
  - pose proof (Hl _ H). destruct (Z.gtb_spec x k); [auto|lia].
  - pose proof (Hr _ H). destruct (Z.gtb_spec x k); [lia|auto].
Qed.

(** After an insertion a lookup of the inserted key returns the entry that
    was found before, when there was one, and the new entry otherwise. *)
Lemma getVal_insertNode_same t k v (d : V) :
  getVal (insertNode t k v) k d =
  if (getVal t k d).1 then getVal t k d else (true, v).
Proof.
  induction t as [|x w l IHl r IHr]; simpl.
  - by rewrite Z.eqb_refl.
  - destruct (Z.geb_spec x k); simpl; destruct (Z.eqb_spec x k); simpl; try done.
    + destruct (Z.gtb_spec x k); [auto|lia].
    + destruct (Z.gtb_spec x k); [lia|auto].
Qed.

Lemma getVal_insertNode_other t k k' v (d : V) :
  k' <> k -> getVal (insertNode t k v) k' d = getVal t k' d.
Proof.
  intros Hne. induction t as [|x w l IHl r IHr]; simpl.
  - destruct (Z.eqb_spec k k'); [congruence|]. by destruct (k >? k').
  - destruct (x >=? k); simpl; destruct (x =? k'); try done;
      by destruct (x >? k').
Qed.

(** *** getSmallestNode *)

Lemma strictly_weakly_ordered t : strictly_ordered t -> weakly_ordered t.
Proof.
  induction t as [|x w l IHl r IHr]; simpl; [done|].
  intros (Hl & Hr & Ol & Or). repeat split; auto.
  - eapply Forall_impl; [exact Hl|]. simpl. lia.
  - eapply Forall_impl; [exact Hr|]. simpl. lia.
Qed.

Lemma strictly_ordered_ordered t : strictly_ordered t -> ordered t.
Proof.
  induction t as [|x w l IHl r IHr]; simpl; [done|].
  intros (Hl & Hr & Ol & Or). repeat split; auto.
  eapply Forall_impl; [exact Hl|]. simpl. lia.
Qed.

(** On a non-null tree the loop ends on a node without left child, whose
    entry is the first one in in-order; in a weakly ordered tree its key is
    a least key. *)
Lemma getSmallestNode_Node x w l r :
  exists s_key s_val s_right,
    getSmallestNode (Node x w l r) = Node s_key s_val nullptr s_right
    /\ (s_key, s_val) ∈ elements (Node x w l r)
    /\ (weakly_ordered (Node x w l r) ->
        Forall (fun y => s_key <= y) (keys (Node x w l r))).
Proof.
  revert x w r. induction l as [|x' w' l' IHl' r' _]; intros x w r.
  - exists x, w, r. simpl. split; [done|]. split; [left|].
    intros (_ & Hr & _). rewrite keys_Node. simpl. constructor; [lia|].
    eapply Forall_impl; [exact Hr|]. simpl. lia.
  - destruct (IHl' x' w' r') as (sk & sv & sr & Hs & Hin & Hmin).
    exists sk, sv, sr. split; [exact Hs|]. split.
    + change (elements (Node x w (Node x' w' l' r') r))
        with (elements (Node x' w' l' r') ++ (x, w) :: elements r).
      apply elem_of_app. by left.
    + intros (Hl & Hr & Ol & _). specialize (Hmin Ol).
      rewrite (keys_Node x). rewrite Forall_app. split; [done|].
      assert (sk <= x) as Hle.
      { rewrite Forall_forall in Hl. apply Hl. by eapply elem_of_elements_keys. }
      constructor; [done|]. eapply Forall_impl; [exact Hr|]. simpl. lia.
Qed.

(** *** remove *)

(** Removing a key that a lookup does not find leaves the tree as it is. *)
Lemma remove_absent t k (d : V) :
  (getVal t k d).1 = false -> HashTree.remove t k = t.
Proof.
  induction t as [|x w l IHl r IHr]; simpl; [done|].
  destruct (Z.eqb_spec x k); [done|].
  destruct (Z.gtb_spec x k); intros Hnf.
  - by rewrite IHl.
  - destruct (Z.ltb_spec x k); [|lia]. by rewrite IHr.
Qed.

Lemma remove_not_in_keys t k : k ∉ keys t -> HashTree.remove t k = t.
Proof.
  induction t as [|x w l IHl r IHr]; simpl; [done|].
  intros (Hkl & Hkx & Hkr)%not_elem_of_keys_Node.
  destruct (Z.gtb_spec x k); [by rewrite IHl|].
  destruct (Z.ltb_spec x k); [by rewrite IHr|lia].
Qed.

Lemma elements_remove_subset t k e :
  e ∈ elements (HashTree.remove t k) -> e ∈ elements t.
Proof.
  revert k. induction t as [|x w l IHl r IHr]; intros k; simpl; [done|].
  destruct (x >? k); [|destruct (x <? k)]; simpl.
  - rewrite !elem_of_app, !elem_of_cons. intros [H|[H|H]]; eauto.
  - rewrite !elem_of_app, !elem_of_cons. intros [H|[H|H]]; eauto.
  - destruct l as [|lx lw ll lr]; [rewrite elem_of_app, elem_of_cons; auto|].
    destruct r as [|rx rw rl rr]; [rewrite elem_of_app; auto|].
    destruct (getSmallestNode_Node rx rw rl rr) as (sk & sv & sr & -> & Hin & _).
    change (elements (Node sk sv (Node lx lw ll lr) (HashTree.remove (Node rx rw rl rr) sk)))
      with (elements (Node lx lw ll lr) ++ (sk, sv)
              :: elements (HashTree.remove (Node rx rw rl rr) sk)).
    rewrite !elem_of_app, !elem_of_cons.
    intros [H|[->|H]]; auto. right; right. by eapply IHr.
Qed.

Lemma keys_remove_subset t k x :
  x ∈ keys (HashTree.remove t k) -> x ∈ keys t.
Proof.
  rewrite !elem_of_keys. intros [v H]. exists v. by eapply elements_remove_subset.
Qed.

Lemma Forall_keys_remove (P : Z -> Prop) t k :
  Forall P (keys t) -> Forall P (keys (HashTree.remove t k)).
Proof.
  rewrite !Forall_forall. intros H x Hx. apply H. by eapply keys_remove_subset.
Qed.

Lemma count_remove_le t k : (count (HashTree.remove t k) <= count t)%nat.
Proof.
  revert k. induction t as [|x w l IHl r IHr]; intros k; simpl; [done|].
  destruct (x >? k); [|destruct (x <? k)]; simpl.
  - specialize (IHl k). lia.
  - specialize (IHr k). lia.
  - destruct l as [|lx lw ll lr]; [lia|].
    destruct r as [|rx rw rl rr]; [lia|].
    destruct (getSmallestNode_Node rx rw rl rr) as (sk & sv & sr & -> & _).
    specialize (IHr sk). simpl in *. lia.
Qed.

Lemma count_remove_ge t k : (count t <= S (count (HashTree.remove t k)))%nat.
Proof.
  revert k. induction t as [|x w l IHl r IHr]; intros k; simpl; [lia|].
  destruct (x >? k); [|destruct (x <? k)]; simpl.
  - specialize (IHl k). lia.
  - specialize (IHr k). lia.
  - destruct l as [|lx lw ll lr]; [simpl; lia|].
    destruct r as [|rx rw rl rr]; [simpl; lia|].
    destruct (getSmallestNode_Node rx rw rl rr) as (sk & sv & sr & -> & _).
    specialize (IHr sk). simpl in *. lia.
Qed.

Lemma weakly_ordered_remove t k :
  weakly_ordered t -> weakly_ordered (HashTree.remove t k).
Proof.
  revert k. induction t as [|x w l IHl r IHr]; intros k; simpl; [done|].
  intros (Hl & Hr & Ol & Or).
  destruct (x >? k); [|destruct (x <? k)]; simpl.
  - repeat split; auto using Forall_keys_remove.
  - repeat split; auto using Forall_keys_remove.
  - destruct l as [|lx lw ll lr]; [done|].
    destruct r as [|rx rw rl rr]; [done|].
    destruct (getSmallestNode_Node rx rw rl rr) as (sk & sv & sr & -> & Hin & Hmin).
    specialize (Hmin Or).
    assert (x <= sk) as Hle.
    { rewrite Forall_forall in Hr. apply Hr. by eapply elem_of_elements_keys. }
    split; [|split; [|split]].
    + eapply Forall_impl; [exact Hl|]. simpl. lia.
    + by apply Forall_keys_remove.
    + exact Ol.
    + by apply IHr.
Qed.

Lemma Forall_keys_elements (P : Z -> Prop) t :
  Forall P (keys t) -> forall e : Z * V, e ∈ elements t -> P e.1.
Proof.
  rewrite Forall_forall. intros H e He. apply H. destruct e as [k v].
  by eapply elem_of_elements_keys.
Qed.

Lemma strictly_ordered_functional t k (a b : V) :
  strictly_ordered t -> (k, a) ∈ elements t -> (k, b) ∈ elements t -> a = b.
Proof.
  intros Ht Ha Hb.
  pose proof (getVal_present t k a a Ht Ha) as H1.
  pose proof (getVal_present t k a b Ht Hb) as H2. congruence.
Qed.

(** Without repeated keys, removal keeps the strict ordering and removes
    exactly the entries of the key. *)
Lemma strictly_ordered_remove t k :
  strictly_ordered t ->
  strictly_ordered (HashTree.remove t k)
  /\ forall e, e ∈ elements (HashTree.remove t k) <-> e ∈ elements t /\ e.1 <> k.
Proof.
  revert k. induction t as [|x w l IHl r IHr]; intros k; simpl.
  { intros _. split; [done|]. intros e. rewrite elem_of_nil. tauto. }
  intros (Hl & Hr & Ol & Or).
  pose proof (Forall_keys_elements _ _ Hl) as Hl'.
  pose proof (Forall_keys_elements _ _ Hr) as Hr'. simpl in Hl', Hr'.
  destruct (Z.gtb_spec x k); [|destruct (Z.ltb_spec x k)]; simpl.
  - destruct (IHl k Ol) as [IH1 IH2]. split.
    + repeat split; auto using Forall_keys_remove.
    + intros e. rewrite !elem_of_app, !elem_of_cons, IH2.
      split.
      * intros [[H1 H2]|[->|H1]]; split; auto; simpl; try lia.
        specialize (Hr' _ H1). lia.
      * intros [[H1|[H1|H1]] H2]; auto.
  - destruct (IHr k Or) as [IH1 IH2]. split.
    + repeat split; auto using Forall_keys_remove.
    + intros e. rewrite !elem_of_app, !elem_of_cons, IH2.
      split.
      * intros [H1|[->|[H1 H2]]]; split; auto; simpl; try lia.
        specialize (Hl' _ H1). lia.
      * intros [[H1|[H1|H1]] H2]; auto.
  - assert (x = k) as -> by lia.
    destruct l as [|lx lw ll lr].
    { split; [done|]. intros e. simpl. rewrite elem_of_cons. split.
      - intros H1. split; [auto|]. specialize (Hr' _ H1). lia.
      - intros [[->|H1] H2]; [done|auto]. }
    destruct r as [|rx rw rl rr].
    { split; [done|]. intros e. rewrite elem_of_app, elem_of_cons, elem_of_nil. split.
      - intros H1. split; [auto|]. specialize (Hl' _ H1). lia.
      - intros [[H1|[->|[]]] H2]; [auto|done]. }
    destruct (getSmallestNode_Node rx rw rl rr) as (sk & sv & sr & -> & Hin & Hmin).
    specialize (Hmin (strictly_weakly_ordered _ Or)).
    destruct (IHr sk Or) as [IH1 IH2].
    remember (Node lx lw ll lr) as L eqn:EL. remember (Node rx rw rl rr) as R eqn:ER.
    clear EL ER IHl IHr.
    pose proof (Hr' _ Hin) as Hsk. simpl in Hsk.
    pose proof (Forall_keys_elements _ _ Hmin) as Hmin'. simpl in Hmin'.
    split.
    + simpl. repeat split; auto.
      * eapply Forall_impl; [exact Hl|]. simpl. lia.
      * apply Forall_forall. intros y [v Hy]%elem_of_keys.
        apply IH2 in Hy as [Hy1 Hy2]. specialize (Hmin' _ Hy1). simpl in *. lia.
    + intros e. simpl. rewrite !elem_of_app, !elem_of_cons, IH2. split.
      * intros [H1|[->|[H1 H2]]]; split; auto; simpl.
        -- specialize (Hl' _ H1). lia.
        -- lia.
        -- specialize (Hr' _ H1). lia.
      * intros [[H1|[->|H1]] H2]; [auto|done|].
        destruct e as [ek ev]. destruct (decide (ek = sk)) as [->|Hne].
        -- right; left. f_equal. exact (strictly_ordered_functional R sk ev sv Or H1 Hin).
        -- right; right. auto.
Qed.
(** *** nodes, getNode and the traversal *)

Lemma getVal_getNode t k (d : V) :
  getVal t k d =
  match getNode t k with
  | nullptr => (false, d)
  | Node _ m_val _ _ => (true, m_val)
  end.
Proof.
  induction t as [|x w l IHl r IHr]; simpl; [done|].
  destruct (x =? k); [done|]. by destruct (x >? k).
Qed.

Lemma getNode_key t k x w l r : getNode t k = Node x w l r -> x = k.
Proof.
  induction t as [|x' w' l' IHl r' IHr]; simpl; [done|].
  destruct (Z.eqb_spec x' k); [congruence|]. by destruct (x' >? k).
Qed.

Lemma length_nodes t : length (nodes t) = count t.
Proof.
  induction t as [|x w l IHl r IHr]; simpl; [done|].
  rewrite length_app. lia.
Qed.

Lemma nodes_not_null t n : n ∈ nodes t -> n <> nullptr.
Proof.
  induction t as [|x w l IHl r IHr]; simpl; [by rewrite elem_of_nil|].
  rewrite elem_of_cons, elem_of_app. intros [->|[H|H]]; auto.
Qed.

Lemma nodes_elements t x w l r :
  Node x w l r ∈ nodes t -> (x, w) ∈ elements t.
Proof.
  induction t as [|x' w' l' IHl r' IHr]; simpl; [by rewrite elem_of_nil|].
  rewrite elem_of_cons, !elem_of_app, elem_of_cons.
  intros [[= -> -> -> ->]|[H|H]]; auto.
Qed.

Lemma elements_nodes t x w :
  (x, w) ∈ elements t -> exists l r, Node x w l r ∈ nodes t.
Proof.
  induction t as [|x' w' l' IHl r' IHr]; simpl; [by rewrite elem_of_nil|].
  rewrite elem_of_app, elem_of_cons.
  intros [H|[[= -> ->]|H]].
  - destruct (IHl H) as (l & r & Hn). exists l, r.
    rewrite elem_of_cons, elem_of_app. auto.
  - exists l', r'. left.
  - destruct (IHr H) as (l & r & Hn). exists l, r.
    rewrite elem_of_cons, elem_of_app. auto.
Qed.

Lemma seekWithComparator_log_spec t cmp :
  seekWithComparator_log t cmp =
  (seekWithComparator t cmp, (nodes t, (2 * count t)%nat)).
Proof.
  induction t as [|x w l IHl r IHr]; simpl; [done|].
  rewrite IHl, IHr. repeat f_equal. lia.
Qed.

(** *** The routing rule of insertNode *)

Lemma getNode_insertNode t k v :
  match getNode t k with
  | Node x w l r =>
      x = k /\ getNode (insertNode t k v) k = Node x w (insertNode l k v) r
  | nullptr => getNode (insertNode t k v) k = Node k v nullptr nullptr
  end.
Proof.
  induction t as [|x w l IHl r IHr]; simpl.
  - by rewrite Z.eqb_refl.
  - destruct (Z.eqb_spec x k) as [->|Hne].
    + split; [done|]. destruct (Z.geb_spec k k); [|lia]. simpl. by rewrite Z.eqb_refl.
    + destruct (Z.gtb_spec x k), (Z.geb_spec x k); try lia; simpl;
        destruct (Z.eqb_spec x k); try done.
      * destruct (Z.gtb_spec x k); [done|lia].
      * destruct (Z.gtb_spec x k); [lia|done].
Qed.

(** C6.  [insertNode] puts the new leaf in place of a null root, descends
    left when the key is less-or-equal to the key of the node and right when
    it is strictly greater, and adds exactly one node.  When a lookup of the
    key already stops at a node, that node stays the one the lookup stops at,
    with its key, value and right subtree as they were, and the new node is
    inserted in its left subtree; both entries are then in the tree. *)
Theorem insertNode_routing t key val :
  insertNode t key val =
    match t with
    | nullptr => Node key val nullptr nullptr
    | Node k v l r =>
        if key <=? k then Node k v (insertNode l key val) r
        else Node k v l (insertNode r key val)
    end
  /\ count (insertNode t key val) = S (count t)
  /\ elements (insertNode t key val) ≡ₚ (key, val) :: elements t
  /\ match getNode t key with
     | Node k v l r =>
         k = key
         /\ getNode (insertNode t key val) key = Node k v (insertNode l key val) r
         /\ count (insertNode l key val) = S (count l)
         /\ (key, val) ∈ elements (insertNode l key val)
     | nullptr => getNode (insertNode t key val) key = Node key val nullptr nullptr
     end.
Proof.
  split; [|split; [|split]].
  - destruct t as [|k v l r]; simpl; [done|].
    by destruct (Z.geb_spec k key), (Z.leb_spec key k); try lia.
  - apply count_insertNode.
  - apply elements_insertNode.
  - pose proof (getNode_insertNode t key val) as H.
    destruct (getNode t key) as [|k v l r]; [done|].
    destruct H as [-> H]. repeat split; [done|apply count_insertNode|].
    rewrite elements_insertNode. left.
Qed.

(** *** Ordering as sortedness of the in-order keys *)

Lemma StronglySorted_cons_iff (R : relation Z) x (l : list Z) :
  StronglySorted R (x :: l) <-> Forall (R x) l /\ StronglySorted R l.
Proof.
  split.
  - intros H. apply StronglySorted_inv in H. tauto.
  - intros [H1 H2]. by constructor.
Qed.

Lemma StronglySorted_middle (R : relation Z) `{!Transitive R} (l r : list Z) k :
  StronglySorted R (l ++ k :: r) <->
  Forall (fun x => R x k) l /\ Forall (R k) r
  /\ StronglySorted R l /\ StronglySorted R r.
Proof.
  induction l as [|a l IH]; simpl.
  - rewrite StronglySorted_cons_iff. split.
    + intros [H1 H2]. repeat split; auto. constructor.
    + intros (_ & H1 & _ & H2). auto.
  - rewrite !StronglySorted_cons_iff, IH, Forall_app, !Forall_cons. split.
    + intros ((Ha & Hak & Har) & Hl & Hr & Sl & Sr). repeat split; auto.
    + intros ((Hak & Hl) & Hr & (Ha & Sl) & Sr). repeat split; auto.
      eapply Forall_impl; [exact Hr|]. intros y Hy. simpl in *. by transitivity k.
Qed.

Lemma weakly_ordered_sorted t : weakly_ordered t <-> Sorted Z.le (keys t).
Proof.
  split.
  - intros H. apply StronglySorted_Sorted. induction t as [|x w l IHl r IHr].
    + constructor.
    + destruct H as (Hl & Hr & Ol & Or). rewrite keys_Node.
      apply (StronglySorted_middle Z.le). auto.
  - intros H. apply Sorted_StronglySorted in H; [|intros a b c; lia].
    induction t as [|x w l IHl r IHr]; [done|].
    rewrite keys_Node in H. apply (StronglySorted_middle Z.le) in H.
    destruct H as (Hl & Hr & Sl & Sr). simpl. auto.
Qed.

Lemma strictly_ordered_sorted t : strictly_ordered t <-> Sorted Z.lt (keys t).
Proof.
  split.
  - intros H. apply StronglySorted_Sorted. induction t as [|x w l IHl r IHr].
    + constructor.
    + destruct H as (Hl & Hr & Ol & Or). rewrite keys_Node.
      apply (StronglySorted_middle Z.lt). auto.
  - intros H. apply Sorted_StronglySorted in H; [|intros a b c; lia].
    induction t as [|x w l IHl r IHr]; [done|].
    rewrite keys_Node in H. apply (StronglySorted_middle Z.lt) in H.
    destruct H as (Hl & Hr & Sl & Sr). simpl. auto.
Qed.

(** In a weakly ordered tree the removal of a key that occurs takes away one
    occurrence of it. *)
Lemma keys_remove_found t k :
  weakly_ordered t -> k ∈ keys t -> k :: keys (HashTree.remove t k) ≡ₚ keys t.
Proof.
  revert k. induction t as [|x w l IHl r IHr]; intros k; simpl.
  { intros _ H. by apply elem_of_nil in H. }
  intros (Hl & Hr & Ol & Or). rewrite keys_Node, elem_of_app, elem_of_cons.
  pose proof Hl as Hl'. pose proof Hr as Hr'. rewrite Forall_forall in Hl', Hr'.
  intros Hin.
  destruct (Z.gtb_spec x k); [|destruct (Z.ltb_spec x k)].
  - assert (k ∈ keys l) as Hk.
    { destruct Hin as [Hx|[Hx|Hx]]; [done|lia|]. apply Hr' in Hx. lia. }
    rewrite keys_Node. rewrite app_comm_cons. by rewrite (IHl k Ol Hk).
  - assert (k ∈ keys r) as Hk.
    { destruct Hin as [Hx|[Hx|Hx]]; [|lia|done]. apply Hl' in Hx. lia. }
    rewrite keys_Node. rewrite Permutation_middle.
    by rewrite (Permutation_swap x k), (IHr k Or Hk).
  - assert (x = k) as -> by lia.
    destruct l as [|lx lw ll lr]; [done|].
    destruct r as [|rx rw rl rr].
    { change (keys (nullptr (V:=V))) with (@nil Z). by rewrite Permutation_cons_append. }
    destruct (getSmallestNode_Node rx rw rl rr) as (sk & sv & sr & -> & Hsin & _).
    remember (Node lx lw ll lr) as L. remember (Node rx rw rl rr) as R.
    rewrite keys_Node.
    rewrite (IHr sk Or (elem_of_elements_keys _ _ _ Hsin)).
    by rewrite Permutation_middle.
Qed.

Lemma count_keys t : count t = length (keys t).
Proof. unfold keys. by rewrite count_elements, length_fmap. Qed.

(** *** Lookup, insertion and removal together *)

(** X1.  A lookup after an insertion: a key other than the inserted one is
    looked up as before; the inserted key yields what the lookup found before
    the insertion when it found something, and the inserted value otherwise. *)
Theorem lookup_after_insertNode t k k' v (d : V) :
  getVal (insertNode t k v) k' d =
  if k' =? k
  then (if (getVal t k d).1 then getVal t k d else (true, v))
  else getVal t k' d.
Proof.
  destruct (Z.eqb_spec k' k) as [->|Hne].
  - apply getVal_insertNode_same.
  - by apply getVal_insertNode_other.
Qed.

(** X2.  For a key that a lookup does not find, [remove] returns the tree as
    it is, and [remove] after [insertNode] of that key gives back the tree
    that was there before the insertion. *)
Theorem remove_of_key_not_found t k v (d : V) :
  (getVal t k d).1 = false ->
  HashTree.remove t k = t /\ HashTree.remove (insertNode t k v) k = t.
Proof.
  intros H. split; [by eapply remove_absent|].
  induction t as [|x w l IHl r IHr]; simpl in *.
  - destruct (Z.gtb_spec k k); [lia|]. by destruct (Z.ltb_spec k k); [lia|].
  - destruct (Z.eqb_spec x k); [done|].
    destruct (Z.gtb_spec x k), (Z.geb_spec x k); try lia; simpl.
    + destruct (Z.gtb_spec x k); [|lia]. by rewrite IHl.
    + destruct (Z.gtb_spec x k); [lia|]. destruct (Z.ltb_spec x k); [|lia].
      by rewrite IHr.
Qed.

(** X3.  When the in-order keys of a tree are in non-decreasing order, a
    lookup finds a key exactly when some node carries it; and a lookup that
    finds nothing hands back the caller's value unchanged. *)
Theorem lookup_finds_every_key t k (d : V) :
  Sorted Z.le (keys t) ->
  ((getVal t k d).1 = true <-> k ∈ keys t)
  /\ ((getVal t k d).1 = false -> getVal t k d = (false, d)).
Proof.
  intros Ho%weakly_ordered_sorted. split; [split|].
  - destruct (getVal t k d) as [[] e] eqn:E; [|done]. intros _.
    by apply getVal_found, elem_of_elements_keys in E.
  - by apply getVal_weakly_ordered.
  - apply getVal_not_found.
Qed.

(** X4.  [insertNode] and [remove] keep the in-order keys of a tree in
    non-decreasing order, whatever the key. *)
Theorem inorder_keys_stay_sorted t k v :
  Sorted Z.le (keys t) ->
  Sorted Z.le (keys (insertNode t k v))
  /\ Sorted Z.le (keys (HashTree.remove t k)).
Proof.
  intros Ho%weakly_ordered_sorted. split; apply weakly_ordered_sorted.
  - by apply weakly_ordered_insertNode.
  - by apply weakly_ordered_remove.
Qed.

(** X5.  When the in-order keys are in non-decreasing order, [remove] of a
    key that occurs in the tree takes away exactly one node, and the keys
    that remain are the keys of before less one occurrence of that key. *)
Theorem remove_deletes_one_occurrence t k :
  Sorted Z.le (keys t) -> k ∈ keys t ->
  k :: keys (HashTree.remove t k) ≡ₚ keys t
  /\ S (count (HashTree.remove t k)) = count t.
Proof.
  intros Ho%weakly_ordered_sorted Hk.
  pose proof (keys_remove_found t k Ho Hk) as Hp. split; [done|].
  by rewrite !count_keys, <- Hp.
Qed.

(** X6.  In a tree whose in-order keys are strictly increasing (no key
    occurs twice) [remove] keeps them strictly increasing, the removed key
    is not found afterwards, every other key is looked up as before, and the
    entries that remain are those of the other keys. *)
Theorem remove_without_repeated_keys t k (d : V) :
  Sorted Z.lt (keys t) ->
  Sorted Z.lt (keys (HashTree.remove t k))
  /\ getVal (HashTree.remove t k) k d = (false, d)
  /\ (forall k', k' <> k -> getVal (HashTree.remove t k) k' d = getVal t k' d)
  /\ (forall e, e ∈ elements (HashTree.remove t k) <-> e ∈ elements t /\ e.1 <> k).
Proof.
  intros Ho%strictly_ordered_sorted.
  destruct (strictly_ordered_remove t k Ho) as [Ho' Hel].
  split; [by apply strictly_ordered_sorted|]. split; [|split; [|done]].
  - apply getVal_absent. intros [e [_ He]%Hel]%elem_of_keys. done.
  - intros k' Hne. destruct (getVal t k' d) as [[] e] eqn:E.
    + apply getVal_found in E. apply getVal_present; [done|]. by apply Hel.
    + pose proof (getVal_not_found t k' d) as Hnf. rewrite E in Hnf.
      specialize (Hnf eq_refl). injection Hnf as ->.
      apply getVal_absent. intros [e' [He' _]%Hel]%elem_of_keys.
      apply elem_of_elements_keys in He'.
      pose proof (getVal_weakly_ordered t k' d (strictly_weakly_ordered t Ho) He') as Hf.
      by rewrite E in Hf.
Qed.

(** X7.  On a null tree [getSmallestNode] returns null.  On a non-null tree
    whose in-order keys are in non-decreasing order it returns a node of the
    tree that has no left child, carries the first entry of the in-order
    sequence, and whose key is a least key of the tree. *)
Theorem getSmallestNode_least x w l r :
  Sorted Z.le (keys (Node x w l r)) ->
  getSmallestNode (nullptr (V:=V)) = nullptr
  /\ exists s_key s_val s_right rest,
       getSmallestNode (Node x w l r) = Node s_key s_val nullptr s_right
       /\ Node s_key s_val nullptr s_right ∈ nodes (Node x w l r)
       /\ elements (Node x w l r) = (s_key, s_val) :: rest
       /\ Forall (fun y => s_key <= y) (keys (Node x w l r)).
Proof.
  intros Hsorted. split; [done|]. revert x w r Hsorted.
  induction l as [|x' w' l' IHl' r' _]; intros x w r Hsorted.
  - exists x, w, r, (elements r). split; [done|]. split; [left|]. split; [done|].
    apply weakly_ordered_sorted in Hsorted as (_ & Hr & _).
    rewrite keys_Node. simpl.
    constructor; [lia|]. eapply Forall_impl; [exact Hr|]. simpl. lia.
  - apply weakly_ordered_sorted in Hsorted as (Hl & Hr & Ol & _).
    destruct (IHl' x' w' r' (proj1 (weakly_ordered_sorted _) Ol))
      as (sk & sv & sr & rest & Hs & Hn & He & Hmin).
    exists sk, sv, sr, (rest ++ (x, w) :: elements r). split; [exact Hs|].
    split; [|split].
    + change (nodes (Node x w (Node x' w' l' r') r))
        with (Node x w (Node x' w' l' r') r :: nodes (Node x' w' l' r') ++ nodes r).
      right. apply elem_of_app. by left.
    + change (elements (Node x w (Node x' w' l' r') r))
        with (elements (Node x' w' l' r') ++ (x, w) :: elements r).
      by rewrite He.
    + rewrite (keys_Node x). rewrite Forall_app. split; [done|].
      assert (sk <= x) as Hle.
      { rewrite Forall_forall in Hl. apply Hl. unfold keys. rewrite He. left. }
      constructor; [done|]. eapply Forall_impl; [exact Hr|]. simpl. lia.
Qed.

(** X8.  With a comparator that always returns one of its two arguments,
    [seekWithComparator] returns null or a node of the tree. *)
Theorem seekWithComparator_selects_node t cmp :
  (forall a b : HashTree V, cmp a b = a \/ cmp a b = b) ->
  seekWithComparator t cmp = nullptr \/ seekWithComparator t cmp ∈ nodes t.
Proof.
  intros Hsel. induction t as [|x w l IHl r IHr]; simpl; [by left|].
  set (L := seekWithComparator l cmp) in *. set (R := seekWithComparator r cmp) in *.
  rewrite elem_of_cons, elem_of_app.
  destruct (Hsel (cmp L R) (Node x w l r)) as [-> | ->]; [|right; by left].
  destruct (Hsel L R) as [-> | ->]; [destruct IHl|destruct IHr]; auto.
Qed.

End HashTreeFacts.

(* ===================================================================== *)
(** ** Facts about Cache *)
(* ===================================================================== *)

Lemma wrap_long_small x : - 2 ^ 63 <= x < 2 ^ 63 -> wrap_long x = x.
Proof. intros H. unfold wrap_long. rewrite Z.mod_small; lia. Qed.

Section CacheFacts.
Import HashTree Cache.
Context {V : Type} (V_default : V).
Context (NUM_BUCKETS : nat) (CACHE_SIZE : Z) (hashVal : Z -> Z).

Abbreviation hashFunc := (Cache.hashFunc NUM_BUCKETS hashVal).
Abbreviation init := (Cache.init (V:=V) NUM_BUCKETS).
Abbreviation get := (Cache.get V_default NUM_BUCKETS hashVal).
Abbreviation put := (Cache.put NUM_BUCKETS CACHE_SIZE hashVal).
Abbreviation put_second_copy := (Cache.put_second_copy NUM_BUCKETS CACHE_SIZE hashVal).
Abbreviation put_all := (Cache.put_all NUM_BUCKETS CACHE_SIZE hashVal).
Abbreviation remove := (Cache.remove NUM_BUCKETS hashVal).
Abbreviation removeLRU := (Cache.removeLRU NUM_BUCKETS hashVal).
Abbreviation removeLRU_scan := (Cache.removeLRU_scan NUM_BUCKETS).
Abbreviation all_nodes := (Cache.all_nodes NUM_BUCKETS).
Abbreviation stored := (Cache.stored NUM_BUCKETS hashVal).
Abbreviation well_formed := (Cache.well_formed NUM_BUCKETS hashVal).
Abbreviation weakly_formed := (Cache.weakly_formed NUM_BUCKETS).

Implicit Types (c : Cache V) (t s n a b : HashTree (V * Z)) (k key : Z) (e : V * Z).
Implicit Types (ns : list (HashTree (V * Z))).

(** *** The comparator and the scan of removeLRU *)

Lemma func_nullptr_l n : func nullptr n = n.
Proof. done. Qed.

Lemma func_nullptr_r n : func n nullptr = n.
Proof. by destruct n. Qed.

Lemma func_oldest_of a b ns1 ns2 :
  oldest_of a ns1 -> oldest_of b ns2 -> oldest_of (func a b) (ns1 ++ ns2).
Proof.
  intros [[-> Ha]|(Ha & Hain & Hamin)] [[-> Hb]|(Hb & Hbin & Hbmin)].
  - left. split; [done|]. intros n [H|H]%elem_of_app; [by apply Ha in H|by apply Hb in H].
  - right. rewrite func_nullptr_l. split; [done|]. split.
    + apply elem_of_app. by right.
    + intros n [H|H]%elem_of_app; [by apply Ha in H|auto].
  - right. rewrite func_nullptr_r. split; [done|]. split.
    + apply elem_of_app. by left.
    + intros n [H|H]%elem_of_app; [auto|by apply Hb in H].
  - right. destruct a as [|ak av al ar]; [done|]. destruct b as [|bk bv bl br]; [done|].
    pose proof (Hamin _ Hain). pose proof (Hbmin _ Hbin).
    simpl. destruct (Z.ltb_spec av.2 bv.2).
    + split; [done|]. split; [apply elem_of_app; by left|].
      intros n [H'|H']%elem_of_app; [auto|].
      specialize (Hbmin _ H'). simpl in *. lia.
    + split; [done|]. split; [apply elem_of_app; by right|].
      intros n [H'|H']%elem_of_app; [|auto].
      specialize (Hamin _ H'). simpl in *. lia.
Qed.

Lemma oldest_of_equiv s ns ns' :
  (forall n, n ∈ ns <-> n ∈ ns') -> oldest_of s ns -> oldest_of s ns'.
Proof.
  intros Heq [[-> H]|(H1 & H2 & H3)]; [left|right].
  - split; [done|]. intros n Hn. apply (H n). by apply Heq.
  - split; [done|]. split; [by apply Heq|]. intros n Hn. apply H3. by apply Heq.
Qed.

Lemma oldest_of_singleton x (w : V * Z) (l r : HashTree (V * Z)) :
  oldest_of (Node x w l r) [Node x w l r].
Proof.
  right. split; [done|]. split; [left|]. by intros n ->%list_elem_of_singleton.
Qed.

(** The traversal with [func] returns an oldest node of the tree. *)
Lemma seekWithComparator_func_oldest t :
  oldest_of (seekWithComparator t func) (nodes t).
Proof.
  induction t as [|x w l IHl r IHr]; simpl.
  - left. split; [done|]. intros n. apply not_elem_of_nil.
  - eapply oldest_of_equiv;
      [|exact (func_oldest_of _ _ _ _ (func_oldest_of _ _ _ _ IHl IHr)
                 (oldest_of_singleton x w l r))].
    intros n. rewrite elem_of_cons, !elem_of_app, list_elem_of_singleton. clear. tauto.
Qed.

Lemma removeLRU_iter_func c oldest i :
  removeLRU_iter c oldest i =
  func (seekWithComparator (bucket_at c i) func) oldest.
Proof.
  unfold removeLRU_iter.
  destruct (seekWithComparator (bucket_at c i) func); [done|].
  by destruct oldest.
Qed.

Lemma removeLRU_loop_oldest c (ixs : list nat) acc ns :
  oldest_of acc ns ->
  oldest_of (fold_left (removeLRU_iter c) ixs acc)
            (ns ++ mjoin ((fun i => nodes (bucket_at c i)) <$> ixs)).
Proof.
  revert acc ns. induction ixs as [|i ixs IH]; intros acc ns Hacc; simpl.
  - by rewrite app_nil_r.
  - rewrite removeLRU_iter_func.
    eapply oldest_of_equiv; [|apply IH, (func_oldest_of _ _ _ _
      (seekWithComparator_func_oldest (bucket_at c i)) Hacc)].
    intros n. rewrite !elem_of_app. clear. tauto.
Qed.

(** After the loop [oldest] is an oldest node of the whole cache, and null
    only when no bucket has a node. *)
Lemma removeLRU_scan_oldest c : oldest_of (removeLRU_scan c) (all_nodes c).
Proof.
  unfold Cache.removeLRU_scan, Cache.all_nodes.
  apply (removeLRU_loop_oldest c (seq 0 NUM_BUCKETS) nullptr []).
  left. split; [done|]. intros n. apply not_elem_of_nil.
Qed.

Lemma elem_of_all_nodes c n :
  n ∈ all_nodes c <-> exists i, (i < NUM_BUCKETS)%nat /\ n ∈ nodes (bucket_at c i).
Proof.
  unfold Cache.all_nodes. rewrite list_elem_of_join. split.
  - intros (ns & Hn & (i & -> & Hi)%list_elem_of_fmap).
    apply elem_of_seq in Hi. exists i. split; [lia|done].
  - intros (i & Hi & Hn). exists (nodes (bucket_at c i)). split; [done|].
    apply list_elem_of_fmap. exists i. split; [done|]. apply elem_of_seq. lia.
Qed.

(** *** Buckets *)

Lemma hashFunc_lt k : (0 < NUM_BUCKETS)%nat -> (hashFunc k < NUM_BUCKETS)%nat.
Proof.
  intros H. unfold Cache.hashFunc.
  pose proof (Z.mod_pos_bound (hashVal k) (Z.of_nat NUM_BUCKETS)). lia.
Qed.

Lemma bucket_at_insert_eq (bs : list (HashTree (V * Z))) i t m :
  (i < length bs)%nat -> bucket_at (mkCache (<[i:=t]> bs) m) i = t.
Proof. intros H. unfold bucket_at. simpl. by rewrite list_lookup_insert_eq. Qed.

Lemma bucket_at_insert_ne (bs : list (HashTree (V * Z))) i j t m m' :
  i <> j -> bucket_at (mkCache (<[i:=t]> bs) m) j = bucket_at (mkCache bs m') j.
Proof. intros H. unfold bucket_at. simpl. by rewrite list_lookup_insert_ne. Qed.

Lemma bucket_at_buckets c c' i :
  buckets c = buckets c' -> bucket_at c i = bucket_at c' i.
Proof. unfold bucket_at. by intros ->. Qed.

Lemma bucket_at_init i : bucket_at init i = nullptr.
Proof.
  unfold bucket_at, Cache.init. simpl.
  destruct (replicate NUM_BUCKETS nullptr !! i) eqn:E; [|done].
  by apply lookup_replicate in E as [-> _].
Qed.

Lemma well_formed_init : well_formed init.
Proof.
  split; [apply length_replicate|]. intros i _. by rewrite bucket_at_init.
Qed.

Lemma not_stored_init k e : ~ stored init k e.
Proof. unfold Cache.stored. rewrite bucket_at_init. apply not_elem_of_nil. Qed.

(** *** get *)

Lemma get_getVal c k (d : V) :
  get c k d =
  ((getVal (bucket_at c (hashFunc k)) k (V_default, 0)).1,
   (getVal (bucket_at c (hashFunc k)) k (V_default, 0)).2.1).
Proof. unfold Cache.get. by destruct (getVal _ _ _). Qed.

Lemma get_stored c k v ts (d : V) :
  (0 < NUM_BUCKETS)%nat -> well_formed c -> stored c k (v, ts) ->
  get c k d = (true, v).
Proof.
  intros HN [_ Hwf] Hs. destruct (Hwf _ (hashFunc_lt k HN)) as [Ho _].
  rewrite get_getVal. by rewrite (getVal_present _ _ _ _ Ho Hs).
Qed.

Lemma get_not_stored c k (d : V) :
  (forall e, ~ stored c k e) -> get c k d = (false, V_default).
Proof.
  intros Hs. rewrite get_getVal. rewrite getVal_absent; [done|].
  intros [e He]%elem_of_keys. by apply (Hs e).
Qed.

(** *** The effect of a removal and of an insertion on a well-formed state *)

Lemma stored_in_bucket c i k e :
  well_formed c -> (i < NUM_BUCKETS)%nat ->
  (k, e) ∈ elements (bucket_at c i) -> stored c k e.
Proof.
  intros [_ Hwf] Hi He. destruct (Hwf i Hi) as [_ Hh].
  rewrite Forall_forall in Hh. unfold Cache.stored.
  by rewrite (Hh k (elem_of_elements_keys _ _ _ He)).
Qed.

Lemma remove_well_formed c k :
  (0 < NUM_BUCKETS)%nat -> well_formed c ->
  well_formed (remove c k).2
  /\ (forall k' e, stored (remove c k).2 k' e <-> stored c k' e /\ k' <> k).
Proof.
  intros HN [Hlen Hwf]. pose proof (hashFunc_lt k HN) as Hk.
  destruct (Hwf _ Hk) as [Ho Hh].
  destruct (strictly_ordered_remove _ k Ho) as [Ho' Hel].
  split; [split|].
  - simpl. by rewrite length_insert.
  - intros i Hi. simpl. destruct (decide (hashFunc k = i)) as [<-|Hne].
    + rewrite bucket_at_insert_eq by lia. split; [done|]. by apply Forall_keys_remove.
    + rewrite (bucket_at_insert_ne _ _ _ _ _ (cacheSize c)) by done.
      rewrite (bucket_at_buckets _ c) by done. by apply Hwf.
  - intros k' e. unfold Cache.stored. simpl.
    destruct (decide (hashFunc k = hashFunc k')) as [Heq|Hne].
    + rewrite <- Heq. rewrite bucket_at_insert_eq by lia. by rewrite Hel.
    + rewrite (bucket_at_insert_ne _ _ _ _ _ (cacheSize c)) by done.
      rewrite (bucket_at_buckets _ c) by done.
      split; [|by intros [? _]]. intros H. split; [done|]. by intros ->.
Qed.

(** Without repeated keys a removed key is not found afterwards. *)
Lemma remove_get_not_found c k (d : V) :
  (0 < NUM_BUCKETS)%nat -> well_formed c ->
  get (remove c k).2 k d = (false, V_default).
Proof.
  intros HN Hwf. apply get_not_stored. intros e.
  destruct (remove_well_formed c k HN Hwf) as [_ Hst]. by intros [_ H]%Hst.
Qed.

Lemma insert_well_formed c k e m :
  (0 < NUM_BUCKETS)%nat -> well_formed c -> (forall e', ~ stored c k e') ->
  let c' := mkCache (<[hashFunc k := insertNode (bucket_at c (hashFunc k)) k e]>
                       (buckets c)) m in
  well_formed c'
  /\ (forall k' e', stored c' k' e' <-> stored c k' e' \/ (k' = k /\ e' = e)).
Proof.
  intros HN [Hlen Hwf] Hns c'. pose proof (hashFunc_lt k HN) as Hk.
  destruct (Hwf _ Hk) as [Ho Hh].
  assert (k ∉ keys (bucket_at c (hashFunc k))) as Hnk.
  { intros [e' He']%elem_of_keys. by apply (Hns e'). }
  split; [split|].
  - simpl. by rewrite length_insert.
  - intros i Hi. unfold c'. destruct (decide (hashFunc k = i)) as [<-|Hne].
    + rewrite bucket_at_insert_eq by lia. split.
      * by apply strictly_ordered_insertNode.
      * rewrite keys_insertNode. by constructor.
    + rewrite (bucket_at_insert_ne _ _ _ _ _ (cacheSize c)) by done.
      rewrite (bucket_at_buckets _ c) by done. by apply Hwf.
  - intros k' e'. unfold Cache.stored, c'.
    destruct (decide (hashFunc k = hashFunc k')) as [Heq|Hne].
    + rewrite <- Heq. rewrite bucket_at_insert_eq by lia.
      rewrite elements_insertNode, elem_of_cons. split.
      * intros [[= -> ->]|H]; auto.
      * intros [H|[-> ->]]; auto.
    + rewrite (bucket_at_insert_ne _ _ _ _ _ (cacheSize c)) by done.
      rewrite (bucket_at_buckets _ c) by done.
      split; [auto|]. intros [H|[-> _]]; [done|congruence].
Qed.

(** *** put below and at the capacity *)

Lemma put_below_capacity c k v now :
  cacheSize c < CACHE_SIZE ->
  put c k v now =
  Returns (true,
           mkCache (<[hashFunc k := insertNode (bucket_at c (hashFunc k)) k (v, now)]>
                      (buckets c))
                   (wrap_long (cacheSize c + 1))).
Proof.
  intros H. unfold Cache.put. destruct (Z.geb_spec (cacheSize c) CACHE_SIZE); [lia|].
  simpl. by rewrite (bucket_at_buckets _ c).
Qed.

Lemma put_at_capacity c k v now :
  CACHE_SIZE <= cacheSize c ->
  put c k v now =
  let* c' := removeLRU (mkCache (buckets c) (wrap_long (cacheSize c + 1))) in
  Returns (true,
           mkCache (<[hashFunc k := insertNode (bucket_at c' (hashFunc k)) k (v, now)]>
                      (buckets c'))
                   (cacheSize c')).
Proof.
  intros H. unfold Cache.put. by destruct (Z.geb_spec (cacheSize c) CACHE_SIZE); [|lia].
Qed.

Lemma well_formed_buckets c c' :
  buckets c = buckets c' -> well_formed c -> well_formed c'.
Proof.
  intros Hb [Hlen Hwf]. split; [by rewrite <- Hb|].
  intros i Hi. rewrite <- (bucket_at_buckets c c' i Hb). by apply Hwf.
Qed.

Lemma stored_buckets c c' k e :
  buckets c = buckets c' -> stored c k e <-> stored c' k e.
Proof. intros Hb. unfold Cache.stored. by rewrite (bucket_at_buckets c c' _ Hb). Qed.

Lemma put_all_app c (ws1 ws2 : list (Z * (V * Z))) :
  put_all c (ws1 ++ ws2) = let* c' := put_all c ws1 in put_all c' ws2.
Proof.
  revert c. induction ws1 as [|[k [v now]] ws1 IH]; intros c; simpl; [done|].
  destruct (put c k v now) as [[b c']| |]; simpl; [apply IH|done|done].
Qed.

(** Writes of fresh, pairwise distinct keys that stay within the capacity
    are all stored, and nothing else changes. *)
Lemma put_all_below_capacity (ws : list (Z * (V * Z))) c :
  (0 < NUM_BUCKETS)%nat -> CACHE_SIZE < 2 ^ 63 ->
  well_formed c -> 0 <= cacheSize c ->
  cacheSize c + Z.of_nat (length ws) <= CACHE_SIZE ->
  NoDup ws.*1 ->
  (forall k e, k ∈ ws.*1 -> ~ stored c k e) ->
  exists c',
    put_all c ws = Returns c'
    /\ well_formed c'
    /\ cacheSize c' = cacheSize c + Z.of_nat (length ws)
    /\ (forall k e, stored c' k e <-> stored c k e \/ (k, e) ∈ ws).
Proof.
  intros HN HC. revert c.
  induction ws as [|[k [v now]] ws IH]; intros c Hwf Hsz Hcap Hnd Hfresh.
  - exists c. simpl. split; [done|]. split; [done|]. split; [lia|].
    intros k e. split; [auto|]. intros [H|H]; [done|]. by apply elem_of_nil in H.
  - simpl in Hcap. rewrite fmap_cons in Hnd, Hfresh. simpl in Hnd, Hfresh.
    apply NoDup_cons in Hnd as [Hk Hnd].
    cbn [Cache.put_all]. rewrite put_below_capacity by lia.
    rewrite wrap_long_small by lia. cbn [bind snd].
    set (c1 := mkCache _ _).
    destruct (insert_well_formed c k (v, now) (cacheSize c + 1) HN Hwf) as [Hwf1 Hst1].
    { intros e'. apply Hfresh. left. }
    fold c1 in Hwf1, Hst1.
    destruct (IH c1) as (c' & Hrun & Hwf' & Hsz' & Hst'); try done.
    + simpl. lia.
    + simpl. lia.
    + intros k' e' Hk' [Hs|[-> _]]%Hst1; [|done].
      revert Hs. apply Hfresh. by right.
    + exists c'. split; [done|]. split; [done|]. split; [unfold c1 in Hsz'; simpl in *; lia|].
      intros k' e'. rewrite Hst', Hst1, elem_of_cons. split.
      * intros [[H|[-> ->]]|H]; auto.
      * intros [H|[[= -> ->]|H]]; auto.
Qed.

(** *** Statements about the traversal and about get *)

(** C8.  [seekWithComparator] returns null on a null tree.  The comparator
    [func] of [removeLRU] lets a null pointer lose against any node.  On a
    non-null tree, [seekWithComparator] with [func] returns a node of the
    tree whose timestamp is least among all nodes of the tree.  The traversal
    is called on every node of the tree, once each, and calls the comparator
    twice per node, whatever the comparator. *)
Theorem seekWithComparator_func_least :
  (forall cmp, seekWithComparator (V:=V * Z) nullptr cmp = nullptr)
  /\ (forall n, func nullptr n = n /\ func n nullptr = n)
  /\ (forall k v l r,
        let t := Node k v l r in
        seekWithComparator t func ∈ nodes t
        /\ Forall (fun n => timestamp (seekWithComparator t func) <= timestamp n)
                  (nodes t))
  /\ (forall t cmp,
        seekWithComparator_log t cmp =
          (seekWithComparator t cmp, (nodes t, (2 * count t)%nat))
        /\ length (nodes t) = count t).
Proof.
  split; [done|]. split; [|split].
  - intros n. split; [apply func_nullptr_l|apply func_nullptr_r].
  - intros k v l r t.
    destruct (seekWithComparator_func_oldest t) as [[_ Hnone]|(_ & Hin & Hleast)].
    + exfalso. apply (Hnone t). left.
    + split; [done|]. by apply Forall_forall.
  - intros t cmp. split; [apply seekWithComparator_log_spec|apply length_nodes].
Qed.

(** C10.  A [get] of a key that is on no node of its bucket returns [false]
    and hands back a default-constructed value, whatever the caller's
    variable held. *)
Theorem get_absent_key_default c k (d : V) :
  k ∉ keys (bucket_at c (hashFunc k)) -> get c k d = (false, V_default).
Proof.
  intros Hk. unfold Cache.get. by rewrite getVal_absent.
Qed.

(** *** Caches without entries, and removal of an absent key *)

Lemma bucket_at_replicate m i :
  bucket_at (mkCache (replicate NUM_BUCKETS (nullptr (V:=V * Z))) m) i = nullptr.
Proof.
  unfold bucket_at. simpl.
  destruct (replicate NUM_BUCKETS nullptr !! i) eqn:E; [|done].
  by apply lookup_replicate in E as [-> _].
Qed.

(** On a cache all of whose buckets are null the loop of [removeLRU] leaves
    [oldest] null, and the read of [oldest->m_key] that follows dereferences
    a null pointer. *)
Lemma removeLRU_no_entries m :
  removeLRU (mkCache (replicate NUM_BUCKETS (nullptr (V:=V * Z))) m) = NullDeref.
Proof.
  unfold Cache.removeLRU.
  destruct (removeLRU_scan_oldest (mkCache (replicate NUM_BUCKETS nullptr) m))
    as [[-> _]|(_ & Hin & _)]; [done|].
  apply elem_of_all_nodes in Hin as (i & _ & Hin).
  rewrite bucket_at_replicate in Hin. by apply elem_of_nil in Hin.
Qed.

Lemma insert_bucket_at_id c i : <[i := bucket_at c i]> (buckets c) = buckets c.
Proof.
  unfold bucket_at. destruct (buckets c !! i) eqn:E; simpl.
  - by apply list_insert_id.
  - apply list_insert_ge. by apply lookup_ge_None.
Qed.

(** Removing a key that is on no node of its bucket changes no bucket; it
    still returns [true] and decrements the counter. *)
Lemma remove_absent_key c k :
  k ∉ keys (bucket_at c (hashFunc k)) ->
  remove c k = (true, mkCache (buckets c) (wrap_long (cacheSize c - 1))).
Proof.
  intros Hk. unfold Cache.remove.
  rewrite remove_not_in_keys by done.
  by rewrite insert_bucket_at_id.
Qed.

(** *** The eviction trigger of put *)

(** In [hashcache.cc], as long as the counter does not wrap, [put] increments
    the counter and then runs [removeLRU] exactly when the incremented
    counter exceeds [CACHE_SIZE]; the insertion and the [return true] that
    follow are reached when [removeLRU] was not run ([removeLRU] itself
    returns in no state, lemma [removeLRU_never_returns]). *)
Lemma put_evicts_iff_incremented_counter_exceeds c k v now :
  - 2 ^ 63 <= cacheSize c < 2 ^ 63 - 1 ->
  put c k v now =
  let c1 := mkCache (buckets c) (cacheSize c + 1) in
  let* c2 := (if CACHE_SIZE <? cacheSize c1 then removeLRU c1 else Returns c1) in
  Returns (true,
           mkCache (<[hashFunc k := insertNode (bucket_at c2 (hashFunc k)) k (v, now)]>
                      (buckets c2))
                   (cacheSize c2)).
Proof.
  intros H. unfold Cache.put. rewrite wrap_long_small by lia. simpl.
  by destruct (Z.geb_spec (cacheSize c) CACHE_SIZE),
       (Z.ltb_spec CACHE_SIZE (cacheSize c + 1)); try lia.
Qed.

(** In the second copy a [put] at counter value [CACHE_SIZE] increments the
    counter to [CACHE_SIZE + 1] and inserts without running [removeLRU]. *)
Lemma put_second_copy_at_capacity c k v now :
  cacheSize c = CACHE_SIZE ->
  put_second_copy c k v now =
  Returns (true,
           mkCache (<[hashFunc k := insertNode (bucket_at c (hashFunc k)) k (v, now)]>
                      (buckets c))
                   (wrap_long (CACHE_SIZE + 1))).
Proof.
  intros H. unfold Cache.put_second_copy. rewrite H.
  destruct (Z.gtb_spec CACHE_SIZE CACHE_SIZE); [lia|].
  simpl. by rewrite (bucket_at_buckets _ c).
Qed.

(** *** What every reachable state has: weakly ordered buckets *)

Lemma weakly_formed_init : weakly_formed init.
Proof.
  split; [apply length_replicate|]. intros i _. by rewrite bucket_at_init.
Qed.

Lemma weakly_formed_buckets c c' :
  buckets c = buckets c' -> weakly_formed c -> weakly_formed c'.
Proof.
  intros Hb [Hlen Hwf]. split; [by rewrite <- Hb|].
  intros i Hi. rewrite <- (bucket_at_buckets c c' i Hb). by apply Hwf.
Qed.

Lemma weakly_formed_insert c i t m :
  weakly_formed c -> weakly_ordered t ->
  weakly_formed (mkCache (<[i := t]> (buckets c)) m).
Proof.
  intros [Hlen Hwf] Ht. split; [simpl; by rewrite length_insert|].
  intros j Hj. destruct (decide (i = j)) as [<-|Hne].
  - rewrite bucket_at_insert_eq by lia. done.
  - rewrite (bucket_at_insert_ne _ _ _ _ _ (cacheSize c)) by done.
    rewrite (bucket_at_buckets _ c) by done. by apply Hwf.
Qed.

Lemma weakly_ordered_bucket_at c i : weakly_formed c -> weakly_ordered (bucket_at c i).
Proof.
  intros [Hlen Hwf]. destruct (decide (i < NUM_BUCKETS)%nat) as [Hi|Hi]; [by apply Hwf|].
  unfold bucket_at. rewrite lookup_ge_None_2 by lia. done.
Qed.

Lemma remove_weakly_formed c k : weakly_formed c -> weakly_formed (remove c k).2.
Proof.
  intros Hwf. apply weakly_formed_insert; [done|].
  by apply weakly_ordered_remove, weakly_ordered_bucket_at.
Qed.

(** [removeLRU] returns in no state: it dereferences the null [oldest] or
    reaches its end without a [return] statement. *)
Lemma removeLRU_never_returns c c' : removeLRU c <> Returns c'.
Proof. unfold Cache.removeLRU. by destruct (Cache.removeLRU_scan NUM_BUCKETS c). Qed.

Lemma put_weakly_formed c k v now r :
  weakly_formed c -> put c k v now = Returns r -> weakly_formed r.2.
Proof.
  unfold Cache.put. intros Hwf.
  set (c1 := mkCache (buckets c) _).
  assert (weakly_formed c1) as Hwf1 by (by apply (weakly_formed_buckets c)).
  destruct (cacheSize c >=? CACHE_SIZE).
  - pose proof (removeLRU_never_returns c1) as Hnr.
    destruct (removeLRU c1) as [c2| |]; [by destruct (Hnr c2)|done|done].
  - simpl. intros [= <-].
    apply weakly_formed_insert; [done|].
    by apply weakly_ordered_insertNode, weakly_ordered_bucket_at.
Qed.

(** In a weakly ordered tree a removal cannot make a lookup succeed that
    failed before. *)
Lemma getVal_remove_still_absent t j k (d : V * Z) :
  weakly_ordered t -> (getVal t k d).1 = false ->
  (getVal (HashTree.remove t j) k d).1 = false.
Proof.
  intros Ho Hnf. destruct (getVal (HashTree.remove t j) k d) as [[] e] eqn:E; [|done].
  apply getVal_found, elements_remove_subset, elem_of_elements_keys in E.
  by rewrite (getVal_weakly_ordered t k d Ho E) in Hnf.
Qed.

(** A [put] of a key that [get] did not find, when it returns, makes [get]
    find the key with the value put. *)
Lemma put_get_fresh_key c k v now (d : V) r :
  (0 < NUM_BUCKETS)%nat -> weakly_formed c ->
  (get c k d).1 = false -> put c k v now = Returns r ->
  r.1 = true /\ get r.2 k d = (true, v).
Proof.
  intros HN Hwf Hget Hput. rewrite get_getVal in Hget. simpl in Hget.
  pose proof (hashFunc_lt k HN) as Hk.
  unfold Cache.put in Hput. set (c1 := mkCache (buckets c) _) in Hput.
  destruct (cacheSize c >=? CACHE_SIZE).
  - pose proof (removeLRU_never_returns c1) as Hnr.
    destruct (removeLRU c1) as [c2| |]; [by destruct (Hnr c2)|done|done].
  - simpl in Hput. injection Hput as <-. split; [done|].
    rewrite get_getVal. cbn [snd buckets].
    rewrite bucket_at_insert_eq by (destruct Hwf as [-> _]; lia).
    rewrite (bucket_at_buckets c1 c) by done.
    by rewrite getVal_insertNode_same, Hget.
Qed.

(** A [put] of a key that [get] finds leaves the entry that [get] finds as
    it is, as long as no eviction runs: the new node is not the one the
    lookup stops at. *)
Lemma put_get_present_key c k v v' now (d : V) :
  (0 < NUM_BUCKETS)%nat -> length (buckets c) = NUM_BUCKETS ->
  cacheSize c < CACHE_SIZE -> get c k d = (true, v) ->
  exists c', put c k v' now = Returns (true, c') /\ get c' k d = (true, v).
Proof.
  intros HN Hlen Hsz Hget. rewrite put_below_capacity by done.
  eexists. split; [done|]. rewrite get_getVal in *.
  rewrite bucket_at_insert_eq by (pose proof (hashFunc_lt k HN); lia).
  rewrite getVal_insertNode_same.
  destruct (getVal (bucket_at c (hashFunc k)) k (V_default, 0)) as [[] e];
    simpl in *; congruence.
Qed.

(** *** The number of entries, and removeLRU on a cache with entries *)

Lemma sum_count_insert (bs : list (HashTree (V * Z))) i t0 t :
  bs !! i = Some t0 ->
  (sum_list (count <$> <[i := t]> bs) + count t0 =
   sum_list (count <$> bs) + count t)%nat.
Proof.
  revert i. induction bs as [|b bs IH]; intros i; [done|].
  destruct i as [|i]; csimpl.
  - intros [= ->]. lia.
  - intros H. specialize (IH i H). lia.
Qed.

Lemma sum_count_pos (bs : list (HashTree (V * Z))) :
  (0 < sum_list (count <$> bs))%nat ->
  exists i t, bs !! i = Some t /\ t <> nullptr.
Proof.
  induction bs as [|b bs IH]; csimpl; [lia|].
  destruct b as [|x w l r].
  - csimpl. intros H. destruct (IH H) as (i & t & Hi & Ht). by exists (S i), t.
  - intros _. by exists 0%nat, (Node x w l r).
Qed.

Lemma lookup_bucket_at c i :
  (i < length (buckets c))%nat -> buckets c !! i = Some (bucket_at c i).
Proof.
  intros H. unfold bucket_at.
  destruct (lookup_lt_is_Some_2 (buckets c) i H) as [t ->]. done.
Qed.

Lemma entry_count_insert c i t m :
  (i < length (buckets c))%nat ->
  (entry_count (mkCache (<[i := t]> (buckets c)) m) + count (bucket_at c i) =
   entry_count c + count t)%nat.
Proof.
  intros H. unfold entry_count. simpl.
  by apply sum_count_insert, lookup_bucket_at.
Qed.

(** With at least one entry in the cache the scan of [removeLRU] ends on a
    node; [removeLRU] then calls [remove] and reaches its end without a
    [return] statement. *)
Lemma removeLRU_flows_off_end c :
  length (buckets c) = NUM_BUCKETS -> (0 < entry_count c)%nat ->
  removeLRU c = FlowsOffEnd.
Proof.
  intros Hlen Hpos. unfold Cache.removeLRU.
  destruct (sum_count_pos _ Hpos) as (i & t & Hi & Ht).
  assert (i < NUM_BUCKETS)%nat as HiN.
  { rewrite <- Hlen. by eapply lookup_lt_Some. }
  assert (bucket_at c i = t) as Hb by (unfold bucket_at; by rewrite Hi).
  destruct (removeLRU_scan_oldest c) as [[_ Hnone]|(Hnn & _)].
  - exfalso. apply (Hnone t), elem_of_all_nodes. exists i. split; [done|].
    rewrite Hb. destruct t; [done|]. left.
  - by destruct (Cache.removeLRU_scan NUM_BUCKETS c).
Qed.

(** Without any entry the scan leaves [oldest] null. *)
Lemma removeLRU_null_deref c :
  length (buckets c) = NUM_BUCKETS -> entry_count c = 0%nat ->
  removeLRU c = NullDeref.
Proof.
  intros Hlen Hzero. unfold Cache.removeLRU.
  destruct (removeLRU_scan_oldest c) as [[-> _]|(_ & Hin & _)]; [done|].
  apply elem_of_all_nodes in Hin as (i & Hi & Hin).
  assert (i < length (buckets c))%nat as Hi' by lia.
  pose proof (entry_count_insert c i nullptr 0 Hi') as He.
  destruct (bucket_at c i) as [|x w l r]; [by apply elem_of_nil in Hin|].
  simpl in He. lia.
Qed.

(** *** Routing and the number of entries *)

Abbreviation routed := (Cache.routed NUM_BUCKETS hashVal).
Abbreviation consistent := (Cache.consistent NUM_BUCKETS CACHE_SIZE hashVal).
Abbreviation run := (Cache.run NUM_BUCKETS CACHE_SIZE hashVal).

Lemma routed_init : routed init.
Proof. intros i _. by rewrite bucket_at_init. Qed.

Lemma routed_buckets c c' : buckets c = buckets c' -> routed c -> routed c'.
Proof.
  intros Hb Hr i Hi. rewrite <- (bucket_at_buckets c c' i Hb). by apply Hr.
Qed.

Lemma routed_insert c k e m :
  (hashFunc k < length (buckets c))%nat -> routed c ->
  routed (mkCache (<[hashFunc k := insertNode (bucket_at c (hashFunc k)) k e]>
                     (buckets c)) m).
Proof.
  intros Hk Hr i Hi. destruct (decide (hashFunc k = i)) as [<-|Hne].
  - rewrite bucket_at_insert_eq by done. rewrite keys_insertNode.
    constructor; [done|]. by apply Hr.
  - rewrite (bucket_at_insert_ne _ _ _ _ _ (cacheSize c)) by done.
    rewrite (bucket_at_buckets _ c) by done. by apply Hr.
Qed.

Lemma routed_remove c k :
  (hashFunc k < length (buckets c))%nat -> routed c -> routed (remove c k).2.
Proof.
  intros Hk Hr i Hi. simpl. destruct (decide (hashFunc k = i)) as [<-|Hne].
  - rewrite bucket_at_insert_eq by done. apply Forall_keys_remove. by apply Hr.
  - rewrite (bucket_at_insert_ne _ _ _ _ _ (cacheSize c)) by done.
    rewrite (bucket_at_buckets _ c) by done. by apply Hr.
Qed.

Lemma well_formed_weakly_formed c : well_formed c -> weakly_formed c /\ routed c.
Proof.
  intros [Hlen Hwf]. split; [split; [done|]|].
  - intros i Hi. by apply strictly_weakly_ordered, Hwf.
  - intros i Hi. by apply Hwf.
Qed.

Lemma count_remove_found t k :
  weakly_ordered t -> k ∈ keys t -> S (count (HashTree.remove t k)) = count t.
Proof.
  intros Ho Hk. by rewrite !count_keys, <- (keys_remove_found t k Ho Hk).
Qed.

Lemma entry_count_remove_found c k :
  weakly_formed c -> (hashFunc k < NUM_BUCKETS)%nat ->
  k ∈ keys (bucket_at c (hashFunc k)) ->
  S (entry_count (remove c k).2) = entry_count c.
Proof.
  intros [Hlen Hwf] Hk Hin.
  assert (hashFunc k < length (buckets c))%nat as Hk' by lia.
  pose proof (entry_count_insert c (hashFunc k)
    (HashTree.remove (bucket_at c (hashFunc k)) k) (wrap_long (cacheSize c - 1)) Hk') as He.
  pose proof (count_remove_found _ k (Hwf _ Hk) Hin) as Hc.
  change (entry_count (remove c k).2) with (entry_count (mkCache
    (<[hashFunc k := HashTree.remove (bucket_at c (hashFunc k)) k]> (buckets c))
    (wrap_long (cacheSize c - 1)))).
  lia.
Qed.

(** With at least one entry in a cache whose buckets are weakly ordered and
    whose keys are routed, the scan of [removeLRU] ends on the node of a
    stored entry of least timestamp, and the [remove] of its key takes away
    one node. *)
Lemma removeLRU_scan_removes_one c :
  weakly_formed c -> routed c -> (0 < entry_count c)%nat ->
  exists j sv sl sr,
    removeLRU_scan c = Node j sv sl sr
    /\ (hashFunc j < NUM_BUCKETS)%nat
    /\ (j, sv) ∈ elements (bucket_at c (hashFunc j))
    /\ (forall n, n ∈ all_nodes c -> sv.2 <= timestamp n)
    /\ S (entry_count (remove c j).2) = entry_count c.
Proof.
  intros Hwf Hr Hpos.
  destruct (sum_count_pos _ Hpos) as (i & t & Hi & Ht).
  assert (i < NUM_BUCKETS)%nat as HiN.
  { destruct Hwf as [<- _]. by eapply lookup_lt_Some. }
  assert (bucket_at c i = t) as Hb by (unfold bucket_at; by rewrite Hi).
  destruct (removeLRU_scan_oldest c) as [[_ Hnone]|(Hnn & Hin & Hleast)].
  { exfalso. apply (Hnone t), elem_of_all_nodes. exists i. split; [done|].
    rewrite Hb. destruct t; [done|]. left. }
  destruct (Cache.removeLRU_scan NUM_BUCKETS c) as [|j sv sl sr]; [done|].
  apply elem_of_all_nodes in Hin as (i' & Hi' & Hin). apply nodes_elements in Hin.
  pose proof (Hr i' Hi') as Hri. rewrite Forall_forall in Hri.
  pose proof (Hri j (elem_of_elements_keys _ _ _ Hin)) as Hj.
  exists j, sv, sl, sr. split; [done|]. rewrite Hj. split; [done|]. split; [done|].
  split; [exact Hleast|].
  apply entry_count_remove_found; [done|by rewrite Hj|].
  rewrite Hj. by eapply elem_of_elements_keys.
Qed.

(** The outcome of a [put] in a consistent state: below the capacity it
    returns [true] in a consistent state, counter and number of entries one
    more; at the capacity it runs [removeLRU] on a cache that has entries and
    ends at the missing [return]. *)
Lemma put_consistent c k v now :
  (0 < NUM_BUCKETS)%nat -> 0 < CACHE_SIZE < 2 ^ 63 ->
  consistent c -> - 2 ^ 63 <= cacheSize c ->
  (cacheSize c < CACHE_SIZE
   /\ exists c',
        put c k v now = Returns (true, c') /\ consistent c'
        /\ cacheSize c' = cacheSize c + 1
        /\ entry_count c' = S (entry_count c))
  \/ (cacheSize c = CACHE_SIZE /\ put c k v now = FlowsOffEnd).
Proof.
  intros HN HC (Hwf & Hr & Hcap & Hcnt) Hsz. pose proof (hashFunc_lt k HN) as Hk.
  destruct (decide (cacheSize c < CACHE_SIZE)) as [Hlt|Hge].
  - left. split; [done|]. rewrite put_below_capacity by done. eexists. split; [done|].
    rewrite wrap_long_small by lia.
    assert (hashFunc k < length (buckets c))%nat as Hk' by (destruct Hwf as [-> _]; lia).
    pose proof (entry_count_insert c (hashFunc k)
      (insertNode (bucket_at c (hashFunc k)) k (v, now)) (cacheSize c + 1) Hk') as He.
    rewrite count_insertNode in He.
    split; [|cbn [cacheSize]; split; [done|lia]].
    split; [|split; [by apply routed_insert|cbn [cacheSize]; lia]].
    apply weakly_formed_insert; [done|].
    by apply weakly_ordered_insertNode, weakly_ordered_bucket_at.
  - right. split; [lia|]. rewrite put_at_capacity by lia.
    rewrite removeLRU_flows_off_end; [done|by destruct Hwf|].
    change (0 < entry_count c)%nat. lia.
Qed.

Lemma remove_consistent c k :
  (0 < NUM_BUCKETS)%nat -> consistent c -> - 2 ^ 63 < cacheSize c < 2 ^ 63 ->
  consistent (remove c k).2 /\ cacheSize (remove c k).2 = cacheSize c - 1.
Proof.
  intros HN (Hwf & Hr & Hcap & Hcnt) Hsz. pose proof (hashFunc_lt k HN) as Hk.
  assert (hashFunc k < length (buckets c))%nat as Hk' by (destruct Hwf as [-> _]; lia).
  assert (cacheSize (remove c k).2 = cacheSize c - 1) as Hsz'.
  { simpl. by rewrite wrap_long_small by lia. }
  split; [|done]. split; [by apply remove_weakly_formed|].
  split; [by apply routed_remove|]. rewrite Hsz'. split; [lia|].
  pose proof (entry_count_insert c (hashFunc k)
    (HashTree.remove (bucket_at c (hashFunc k)) k) (wrap_long (cacheSize c - 1)) Hk') as He.
  pose proof (count_remove_ge (bucket_at c (hashFunc k)) k).
  change (entry_count (remove c k).2) with (entry_count (mkCache
    (<[hashFunc k := HashTree.remove (bucket_at c (hashFunc k)) k]> (buckets c))
    (wrap_long (cacheSize c - 1)))).
  lia.
Qed.

Lemma consistent_init : 0 <= CACHE_SIZE -> consistent init.
Proof.
  intros HC. split; [apply weakly_formed_init|]. split; [apply routed_init|].
  simpl. lia.
Qed.

(** A sequence of calls from a consistent state returns in a consistent
    state or ends at the missing [return] of [removeLRU]; no call of it
    dereferences a null pointer. *)
Lemma run_consistent (ops : list Cache.call) c :
  (0 < NUM_BUCKETS)%nat -> 0 < CACHE_SIZE < 2 ^ 63 ->
  consistent c -> - 2 ^ 63 + Z.of_nat (length ops) <= cacheSize c ->
  run c ops = FlowsOffEnd \/ exists c', run c ops = Returns c' /\ consistent c'.
Proof.
  intros HN HC. revert c. induction ops as [|op ops IH]; intros c Hc Hsz.
  - right. by exists c.
  - simpl in Hsz. cbn [Cache.run]. destruct op as [k v now|k|k]; cbn [Cache.step].
    + destruct (put_consistent c k v now HN HC Hc) as
        [(_ & c1 & -> & Hc1 & Hsz1 & _)|(_ & ->)]; [lia| |by left].
      cbn [bind snd]. apply IH; [done|lia].
    + cbn [bind]. destruct (remove_consistent c k HN Hc) as [Hc1 Hsz1].
      { destruct Hc as (_ & _ & Hcap & _). lia. }
      apply IH; [done|lia].
    + cbn [bind]. apply IH; [done|lia].
Qed.

(** *** Properties of the operations of the cache *)

Lemma getVal_remove_other t k k' (d : V * Z) :
  strictly_ordered t -> k' <> k ->
  getVal (HashTree.remove t k) k' d = getVal t k' d.
Proof.
  intros Ho Hne. destruct (strictly_ordered_remove t k Ho) as [Ho' Hel].
  destruct (getVal t k' d) as [[] e] eqn:E.
  - apply getVal_found in E. apply getVal_present; [done|]. by apply Hel.
  - pose proof (getVal_not_found t k' d) as Hnf. rewrite E in Hnf.
    specialize (Hnf eq_refl). injection Hnf as ->.
    apply getVal_absent. intros [e' [He' _]%Hel]%elem_of_keys.
    apply elem_of_elements_keys in He'.
    pose proof (getVal_weakly_ordered t k' d (strictly_weakly_ordered t Ho) He') as Hf.
    by rewrite E in Hf.
Qed.

Lemma remove_insertNode_not_found t k e (d : V * Z) :
  (getVal t k d).1 = false -> HashTree.remove (insertNode t k e) k = t.
Proof.
  intros Hnf. induction t as [|x w l IHl r IHr]; simpl in *.
  - destruct (Z.gtb_spec k k); [lia|]. by destruct (Z.ltb_spec k k); [lia|].
  - destruct (Z.eqb_spec x k); [done|].
    destruct (Z.gtb_spec x k), (Z.geb_spec x k); try lia; simpl.
    + destruct (Z.gtb_spec x k); [|lia]. by rewrite IHl.
    + destruct (Z.gtb_spec x k); [lia|]. destruct (Z.ltb_spec x k); [|lia].
      by rewrite IHr.
Qed.

(** X9.  A [put] while the counter is below the capacity returns [true]
    without evicting: the counter and the number of entries grow by one,
    every other key is looked up as before, and the key put is found with
    the value that was found before, when there was one, and with the value
    put otherwise. *)
Theorem put_below_capacity_effect c k v now :
  (0 < NUM_BUCKETS)%nat -> length (buckets c) = NUM_BUCKETS ->
  - 2 ^ 63 <= cacheSize c < CACHE_SIZE -> CACHE_SIZE < 2 ^ 63 ->
  exists c',
    put c k v now = Returns (true, c')
    /\ cacheSize c' = cacheSize c + 1
    /\ entry_count c' = S (entry_count c)
    /\ (forall k' d,
          get c' k' d =
          if k' =? k then (if (get c k d).1 then get c k d else (true, v))
          else get c k' d).
Proof.
  intros HN Hlen Hsz HC. pose proof (hashFunc_lt k HN) as Hk.
  rewrite put_below_capacity by lia. eexists. split; [done|].
  rewrite wrap_long_small by lia. split; [done|]. split.
  - assert (hashFunc k < length (buckets c))%nat as Hk' by lia.
    pose proof (entry_count_insert c (hashFunc k)
      (insertNode (bucket_at c (hashFunc k)) k (v, now)) (cacheSize c + 1) Hk') as He.
    rewrite count_insertNode in He. lia.
  - intros k' d. rewrite !get_getVal.
    destruct (Z.eqb_spec k' k) as [->|Hne].
    + rewrite bucket_at_insert_eq by lia. rewrite getVal_insertNode_same.
      by destruct (getVal (bucket_at c (hashFunc k)) k (V_default, 0)) as [[] e].
    + destruct (decide (hashFunc k = hashFunc k')) as [Heq|Hneq].
      * rewrite <- Heq. rewrite bucket_at_insert_eq by lia.
        by rewrite getVal_insertNode_other.
      * by rewrite (bucket_at_insert_ne _ _ _ _ _ (cacheSize c)),
          (bucket_at_buckets _ c).
Qed.

(** X10.  In a cache without repeated keys [remove] returns [true], leaves
    the cache without repeated keys, makes the removed key not found,
    changes the lookup of no other key, and decrements the counter whether
    the key was there or not. *)
Theorem remove_with_distinct_keys c k :
  (0 < NUM_BUCKETS)%nat -> well_formed c -> - 2 ^ 63 < cacheSize c < 2 ^ 63 ->
  exists c',
    remove c k = (true, c')
    /\ well_formed c'
    /\ cacheSize c' = cacheSize c - 1
    /\ (forall d, get c' k d = (false, V_default))
    /\ (forall k' d, k' <> k -> get c' k' d = get c k' d)
    /\ (forall k' e, stored c' k' e <-> stored c k' e /\ k' <> k).
Proof.
  intros HN Hwf Hsz. exists (remove c k).2. split; [done|].
  destruct (remove_well_formed c k HN Hwf) as [Hwf' Hst].
  split; [done|]. split; [simpl; by rewrite wrap_long_small by lia|].
  split; [intros d; by apply remove_get_not_found|]. split; [|done].
  intros k' d Hne. rewrite !get_getVal. simpl.
  pose proof (hashFunc_lt k HN) as Hk. destruct Hwf as [Hlen Hwf].
  destruct (decide (hashFunc k = hashFunc k')) as [Heq|Hneq].
  - rewrite <- Heq. rewrite bucket_at_insert_eq by lia.
    rewrite getVal_remove_other; [done| |done]. by apply Hwf.
  - by rewrite (bucket_at_insert_ne _ _ _ _ _ (cacheSize c)),
      (bucket_at_buckets _ c).
Qed.

(** X11.  Below the capacity, a [put] of a key that [get] does not find
    followed by a [remove] of that key gives back the state of before the
    [put], buckets and counter. *)
Theorem put_remove_round_trip c k v now (d : V) :
  (0 < NUM_BUCKETS)%nat -> length (buckets c) = NUM_BUCKETS ->
  - 2 ^ 63 <= cacheSize c < CACHE_SIZE -> CACHE_SIZE < 2 ^ 63 ->
  (get c k d).1 = false ->
  exists c', put c k v now = Returns (true, c') /\ remove c' k = (true, c).
Proof.
  intros HN Hlen Hsz HC Hget. pose proof (hashFunc_lt k HN) as Hk.
  rewrite put_below_capacity by lia. eexists. split; [done|].
  rewrite get_getVal in Hget. simpl in Hget.
  unfold Cache.remove. cbn [buckets cacheSize].
  rewrite bucket_at_insert_eq by lia.
  rewrite (remove_insertNode_not_found _ _ _ (V_default, 0)) by done.
  rewrite list_insert_insert_eq, insert_bucket_at_id.
  rewrite !wrap_long_small; rewrite ?wrap_long_small; try lia.
  destruct c as [bs n]. simpl. do 2 f_equal. lia.
Qed.

(** X12.  On a cache without repeated keys that holds at least one entry,
    the loop of [removeLRU] leaves [oldest] on the node of a stored entry
    whose timestamp is least among all stored entries, and the [remove] of
    its key takes away exactly that entry; after it [removeLRU] reaches its
    end without a [return] statement, so the call does not return. *)
Theorem removeLRU_scan_finds_a_least_entry c :
  (0 < NUM_BUCKETS)%nat -> well_formed c -> (0 < entry_count c)%nat ->
  exists k e l r,
    removeLRU_scan c = Node k e l r
    /\ stored c k e
    /\ (forall k' e', stored c k' e' -> e.2 <= e'.2)
    /\ (forall k' e', stored (remove c k).2 k' e' <-> stored c k' e' /\ k' <> k)
    /\ S (entry_count (remove c k).2) = entry_count c
    /\ removeLRU c = FlowsOffEnd.
Proof.
  intros HN Hwf Hpos. destruct (well_formed_weakly_formed c Hwf) as [Hweak Hr].
  destruct (removeLRU_scan_removes_one c Hweak Hr Hpos)
    as (j & sv & sl & sr & Hscan & Hj & Hin & Hleast & Hcnt).
  destruct (remove_well_formed c j HN Hwf) as [Hwf' Hst].
  exists j, sv, sl, sr. split; [done|]. split; [done|].
  split; [|split; [done|]; split; [done|]].
  - intros k' e' Hs. destruct (elements_nodes _ _ _ Hs) as (l & r & Hn).
    apply (Hleast (Node k' e' l r)), elem_of_all_nodes.
    exists (hashFunc k'). split; [by apply hashFunc_lt|done].
  - apply removeLRU_flows_off_end; [by destruct Hwf|done].
Qed.

(** X13.  A [put] that finds the counter at or above the capacity does not
    return: it runs [removeLRU], which dereferences the null [oldest] when no
    bucket has a node and otherwise reaches its end without a [return]
    statement. *)
Theorem put_at_capacity_does_not_return c k v now :
  length (buckets c) = NUM_BUCKETS -> CACHE_SIZE <= cacheSize c ->
  put c k v now =
  match entry_count c with
  | O => NullDeref
  | S _ => FlowsOffEnd
  end.
Proof.
  intros Hlen Hsz. rewrite put_at_capacity by done.
  set (c1 := mkCache (buckets c) _).
  destruct (entry_count c) as [|n] eqn:E.
  - by rewrite (removeLRU_null_deref c1).
  - rewrite (removeLRU_flows_off_end c1); [done|done|].
    change (0 < entry_count c)%nat. lia.
Qed.

(** X14.  From the empty cache no sequence of [put], [remove] and [get]
    calls dereferences a null pointer: the sequence either ends at the
    missing [return] of [removeLRU], in a [put] that evicts, or returns, and
    then every bucket is weakly ordered, every key sits in the bucket it
    hashes to, and the counter is at most the capacity and at most the number
    of entries. *)
Theorem run_never_dereferences_null (ops : list Cache.call) :
  (0 < NUM_BUCKETS)%nat -> 0 < CACHE_SIZE < 2 ^ 63 ->
  Z.of_nat (length ops) <= 2 ^ 63 ->
  run init ops = FlowsOffEnd
  \/ exists c, run init ops = Returns c /\ consistent c.
Proof.
  intros HN HC Hlen. apply run_consistent; [done..| |simpl; lia].
  apply consistent_init. lia.
Qed.

Lemma entry_count_init : entry_count init = 0%nat.
Proof.
  unfold entry_count, Cache.init. cbn [buckets].
  generalize NUM_BUCKETS. intros n. induction n as [|n IHn]; [done|].
  csimpl. by rewrite IHn.
Qed.

Lemma put_all_within_capacity (ws : list (Z * (V * Z))) c :
  (0 < NUM_BUCKETS)%nat -> CACHE_SIZE < 2 ^ 63 ->
  length (buckets c) = NUM_BUCKETS -> - 2 ^ 63 <= cacheSize c ->
  cacheSize c + Z.of_nat (length ws) <= CACHE_SIZE ->
  exists c',
    put_all c ws = Returns c'
    /\ length (buckets c') = NUM_BUCKETS
    /\ cacheSize c' = cacheSize c + Z.of_nat (length ws)
    /\ entry_count c' = (entry_count c + length ws)%nat.
Proof.
  intros HN HC. revert c.
  induction ws as [|[k [v now]] ws IH]; intros c Hlen Hsz Hcap.
  - exists c. simpl. repeat split; [done|lia|lia].
  - simpl in Hcap. cbn [Cache.put_all]. rewrite put_below_capacity by lia.
    rewrite wrap_long_small by lia. cbn [bind snd].
    set (c1 := mkCache _ _).
    pose proof (hashFunc_lt k HN) as Hk.
    assert (hashFunc k < length (buckets c))%nat as Hk' by lia.
    pose proof (entry_count_insert c (hashFunc k)
      (insertNode (bucket_at c (hashFunc k)) k (v, now)) (cacheSize c + 1) Hk') as He.
    rewrite count_insertNode in He. fold c1 in He.
    destruct (IH c1) as (c' & Hrun & Hlen' & Hsz' & Hcnt').
    + unfold c1. simpl. by rewrite length_insert.
    + unfold c1. simpl. lia.
    + unfold c1. simpl. lia.
    + exists c'. split; [done|]. split; [done|].
      unfold c1 in Hsz'. simpl in *. split; lia.
Qed.

(** From the empty cache a sequence of at most [CACHE_SIZE] [put]s returns,
    with counter and number of entries equal to the number of [put]s; a
    longer one ends at the missing [return] of [removeLRU], in the first
    [put] that finds the counter at the capacity. *)
Lemma put_all_from_init (ws : list (Z * (V * Z))) :
  (0 < NUM_BUCKETS)%nat -> 0 < CACHE_SIZE < 2 ^ 63 ->
  if Z.of_nat (length ws) <=? CACHE_SIZE
  then exists c,
         put_all init ws = Returns c
         /\ cacheSize c = Z.of_nat (length ws)
         /\ entry_count c = length ws
  else put_all init ws = FlowsOffEnd.
Proof.
  intros HN HC. destruct (Z.leb_spec (Z.of_nat (length ws)) CACHE_SIZE) as [Hle|Hgt].
  - destruct (put_all_within_capacity ws init HN) as (c & Hrun & _ & Hsz & Hcnt);
      [lia|apply length_replicate|simpl; lia|simpl; lia|].
    exists c. split; [done|]. rewrite entry_count_init in Hcnt. simpl in Hsz.
    split; lia.
  - set (n := Z.to_nat CACHE_SIZE).
    rewrite <- (take_drop n ws). rewrite put_all_app.
    assert (length (take n ws) = n) as Hn by (rewrite length_take; lia).
    destruct (put_all_within_capacity (take n ws) init HN) as (c & -> & Hlen & Hsz & Hcnt);
      [lia|apply length_replicate|simpl; lia|simpl; lia|].
    rewrite entry_count_init, Hn in Hcnt. rewrite Hn in Hsz. simpl in Hsz.
    cbn [bind].
    destruct (drop n ws) as [|[k [v now]] rest] eqn:E.
    { apply (f_equal length) in E. rewrite length_drop in E. simpl in E. lia. }
    cbn [Cache.put_all]. rewrite put_at_capacity by lia.
    rewrite removeLRU_flows_off_end; [done|done|].
    change (0 < entry_count c)%nat. lia.
Qed.

(** X15.  From the empty cache a sequence of at most [CACHE_SIZE] [put]s
    returns, and then the counter and the number of entries both equal the
    number of [put]s; a longer sequence does not return: the first [put]
    that finds the counter at the capacity runs [removeLRU], which reaches
    its end without a [return] statement. *)
Theorem puts_return_up_to_capacity (ws : list (Z * (V * Z))) :
  (0 < NUM_BUCKETS)%nat -> 0 < CACHE_SIZE < 2 ^ 63 ->
  if Z.of_nat (length ws) <=? CACHE_SIZE
  then exists c,
         put_all init ws = Returns c
         /\ cacheSize c = Z.of_nat (length ws)
         /\ entry_count c = length ws
  else put_all init ws = FlowsOffEnd.
Proof. apply put_all_from_init. Qed.

(** X18.  On a cache with at least one entry whose buckets are weakly
    ordered and whose keys are routed (repeated keys allowed), the loop of
    [removeLRU] leaves [oldest] on a node whose timestamp is least among all
    nodes, the [remove] of its key takes away exactly one node, and
    [removeLRU] then reaches its end without a [return] statement. *)
Theorem removeLRU_scan_with_repeated_keys c :
  weakly_formed c -> routed c -> (0 < entry_count c)%nat ->
  exists key e l r,
    removeLRU_scan c = Node key e l r
    /\ stored c key e
    /\ Forall (fun n => e.2 <= timestamp n) (all_nodes c)
    /\ S (entry_count (remove c key).2) = entry_count c
    /\ removeLRU c = FlowsOffEnd.
Proof.
  intros Hwf Hr Hpos.
  destruct (removeLRU_scan_removes_one c Hwf Hr Hpos)
    as (j & sv & sl & sr & Hscan & _ & Hin & Hleast & Hcnt).
  exists j, sv, sl, sr. split; [done|]. split; [done|].
  split; [by apply Forall_forall|]. split; [done|].
  apply removeLRU_flows_off_end; [by destruct Hwf|done].
Qed.

End CacheFacts.

(* ===================================================================== *)
(** ** The second copy of the program *)
(* ===================================================================== *)

Section SecondCopyFacts.
Import HashTree Cache.
Context {V : Type}.
Context (NUM_BUCKETS : nat) (CACHE_SIZE : Z) (hashVal : Z -> Z).

Lemma put_second_copy_put (c : Cache V) k v now :
  Cache.put_second_copy NUM_BUCKETS CACHE_SIZE hashVal c k v now =
  Cache.put NUM_BUCKETS (CACHE_SIZE + 1) hashVal c k v now.
Proof.
  unfold Cache.put_second_copy, Cache.put.
  by destruct (Z.gtb_spec (cacheSize c) CACHE_SIZE),
       (Z.geb_spec (cacheSize c) (CACHE_SIZE + 1)); try lia.
Qed.

Lemma put_all_second_copy_put_all (c : Cache V) ws :
  Cache.put_all_second_copy NUM_BUCKETS CACHE_SIZE hashVal c ws =
  Cache.put_all NUM_BUCKETS (CACHE_SIZE + 1) hashVal c ws.
Proof.
  revert c. induction ws as [|[k [v now]] ws IH]; intros c; simpl; [done|].
  rewrite put_second_copy_put.
  destruct (Cache.put _ _ _ c k v now) as [r| |]; simpl; [apply IH|done|done].
Qed.

(** X16.  The [put] of the second copy behaves as the [put] of
    [hashcache.cc] does with a capacity larger by one: from the empty cache a
    sequence of at most [CACHE_SIZE + 1] of its [put]s returns, with counter
    and number of entries equal to the number of [put]s, and a longer one
    does not return (it ends at the missing [return] of [removeLRU]). *)
Theorem second_copy_holds_one_more_entry (ws : list (Z * (V * Z))) :
  (0 < NUM_BUCKETS)%nat -> 0 <= CACHE_SIZE < 2 ^ 63 - 1 ->
  Cache.put_all_second_copy NUM_BUCKETS CACHE_SIZE hashVal (Cache.init NUM_BUCKETS) ws
  = Cache.put_all NUM_BUCKETS (CACHE_SIZE + 1) hashVal (Cache.init NUM_BUCKETS) ws
  /\ if Z.of_nat (length ws) <=? CACHE_SIZE + 1
     then exists c,
            Cache.put_all_second_copy NUM_BUCKETS CACHE_SIZE hashVal
              (Cache.init NUM_BUCKETS) ws = Returns c
            /\ cacheSize c = Z.of_nat (length ws)
            /\ entry_count c = length ws
     else Cache.put_all_second_copy NUM_BUCKETS CACHE_SIZE hashVal
            (Cache.init NUM_BUCKETS) ws = FlowsOffEnd.
Proof.
  intros HN HC. split; [apply put_all_second_copy_put_all|].
  rewrite put_all_second_copy_put_all.
  apply put_all_from_init; [done|lia].
Qed.

End SecondCopyFacts.

(* ===================================================================== *)
(** ** The claims on concrete runs *)
(* ===================================================================== *)

Section Runs.
Import HashTree Cache.

Lemma orderedb_ordered {V : Type} (t : HashTree V) : orderedb t = true -> ordered t.
Proof.
  induction t as [|x w l IHl r IHr]; simpl; [done|].
  rewrite !andb_true_iff, !forallb_forall.
  intros [[[Hl Hr] Ol] Or]. repeat split; auto.
  - apply Forall_forall. intros y Hy%list_elem_of_In. apply Hl in Hy. lia.
  - apply Forall_forall. intros y Hy%list_elem_of_In. apply Hr in Hy. lia.
Qed.

Lemma ordered_orderedb {V : Type} (t : HashTree V) : ordered t -> orderedb t = true.
Proof.
  induction t as [|x w l IHl r IHr]; simpl; [done|].
  rewrite !andb_true_iff, !forallb_forall, !Forall_forall.
  intros (Hl & Hr & Ol & Or). repeat split; auto.
  - intros y Hy%list_elem_of_In. apply Hl in Hy. lia.
  - intros y Hy%list_elem_of_In. apply Hr in Hy. lia.
Qed.

(** A miss on the fresh cache of the source overwrites the caller's 77. *)
Lemma get_absent_key_default_fresh :
  Reference.get Reference.init 5 77 = (false, 0).
Proof.
  apply (get_absent_key_default 0 Reference.NUM_BUCKETS Reference.hashVal
           Reference.init 5 77).
  vm_compute. apply not_elem_of_nil.
Defined.

(** C2.  On the cache of the source (capacity 1024): the 1024 writes of the
    distinct keys 0 .. 1023 at increasing timestamps return and are all
    stored.  The write of a further key finds the counter at the capacity and
    runs [removeLRU]: its loop ends on the node of key 0, the entry with the
    least timestamp, and [remove] is called with that key; then [removeLRU],
    declared [bool], reaches its closing brace without a [return] statement.
    The [put] does not return, and neither does the sequence of the 1025
    writes: no state is reached in which key 0 is not found and the other
    1024 keys are. *)
Theorem put_beyond_capacity_flows_off_end :
  exists c,
    Reference.put_all Reference.init Reference.fill = Returns c
    /\ cacheSize c = Reference.CACHE_SIZE
    /\ Reference.entry_count c = 1024%nat
    /\ Cache.removeLRU_scan Reference.NUM_BUCKETS (mkCache (buckets c) 1025)
       = Node 0 (0, 0) nullptr nullptr
    /\ Reference.put c 1024 1024 1024 = FlowsOffEnd
    /\ Reference.put_all Reference.init (Reference.fill ++ [(1024, (1024, 1024))])
       = FlowsOffEnd.
Proof.
  eexists. split; [vm_compute; reflexivity|].
  split; [vm_compute; reflexivity|].
  split; [vm_compute; reflexivity|].
  split; [vm_compute; reflexivity|].
  split; vm_compute; reflexivity.
Qed.

(** C1.  On the cache of the source, a [put] of key 1 with value 10 followed
    by a [put] of key 1 with value 20 (both return [true], no eviction, no
    later write): [get] of key 1 finds the value 10 of the first [put], not
    the value 20 of the overwriting [put]. *)
Theorem put_existing_key_get_old_value :
  exists c1 c2,
    Reference.put Reference.init 1 10 100 = Returns (true, c1)
    /\ Reference.put c1 1 20 200 = Returns (true, c2)
    /\ Reference.get c2 1 0 = (true, 10).
Proof.
  eexists. eexists. split; [vm_compute; reflexivity|].
  split; vm_compute; reflexivity.
Qed.

(** C3.  [removeLRU] on the freshly constructed cache of the source, and on
    any cache all of whose buckets are null, dereferences the null pointer
    [oldest]. *)
Theorem removeLRU_empty_cache_null_deref :
  Reference.removeLRU Reference.init = NullDeref
  /\ forall (V : Type) NUM_BUCKETS hashVal m,
       Cache.removeLRU NUM_BUCKETS hashVal
         (mkCache (replicate NUM_BUCKETS (nullptr (V:=V * Z))) m) = NullDeref.
Proof.
  split; [vm_compute; reflexivity|]. intros V N h m. apply removeLRU_no_entries.
Qed.

(** C4.  On the freshly constructed cache of the source key 7 is absent;
    [remove] of key 7 leaves every bucket as it was, but returns [true] and
    decrements the counter from 0 to -1. *)
Theorem remove_absent_key_true_and_decrements :
  Reference.get Reference.init 7 0 = (false, 0)
  /\ Reference.remove Reference.init 7
     = (true, mkCache (buckets Reference.init) (-1)).
Proof. split; vm_compute; reflexivity. Qed.

(** C5.  On the cache of the source, after two [put]s of key 1 (values 10
    and 20) a [remove] of key 1 returns [true], and the [get] of key 1 that
    follows still finds the key, with the value 20 of the second [put]. *)
Theorem remove_repeated_key_get_still_found :
  exists c1 c2 c3,
    Reference.put Reference.init 1 10 100 = Returns (true, c1)
    /\ Reference.put c1 1 20 200 = Returns (true, c2)
    /\ Reference.remove c2 1 = (true, c3)
    /\ Reference.get c3 1 0 = (true, 20).
Proof.
  do 3 eexists. split; [vm_compute; reflexivity|].
  split; [vm_compute; reflexivity|].
  split; vm_compute; reflexivity.
Qed.

(** C7.  The second copy of the program, on the cache of the source: after
    [CACHE_SIZE] = 1024 writes of distinct keys the counter is 1024; the next
    [put] increments it to 1025, which exceeds the capacity, and returns
    [true] without having run [removeLRU]: all 1025 entries are stored and
    the oldest key 0 is still found. *)
Theorem put_second_copy_no_eviction_at_capacity :
  exists c c',
    Reference.put_all_second_copy Reference.init Reference.fill = Returns c
    /\ cacheSize c = Reference.CACHE_SIZE
    /\ Reference.put_second_copy c 1024 1024 1024 = Returns (true, c')
    /\ cacheSize c' = 1025
    /\ Reference.entry_count c' = 1025%nat
    /\ Reference.get c' 0 77 = (true, 0).
Proof.
  do 2 eexists. split; [vm_compute; reflexivity|].
  split; [vm_compute; reflexivity|].
  split; [vm_compute; reflexivity|].
  split; [vm_compute; reflexivity|].
  split; vm_compute; reflexivity.
Qed.

(** C9.  On the cache of the source, the writes of the keys 1024, 0, 5120 and
    5120 again build in bucket 0 a tree that has the ordering invariant; the
    [remove] of key 1024 (a node with two children) replaces the root by its
    in-order successor, the second node of key 5120, and then deletes the
    first node of key 5120 from the right subtree: the right subtree of the
    new root holds the key of the root itself, and the invariant is lost. *)
Theorem remove_two_children_breaks_ordering :
  exists c c',
    Reference.put_all Reference.init Reference.repeated_key = Returns c
    /\ ordered (Reference.bucket_at c 0)
    /\ Reference.remove c 1024 = (true, c')
    /\ Reference.bucket_at c' 0
       = Node 5120 (40, 4) (Node 0 (20, 2) nullptr nullptr)
                           (Node 5120 (40, 4) nullptr nullptr)
    /\ ~ ordered (Reference.bucket_at c' 0).
Proof.
  do 2 eexists. split; [vm_compute; reflexivity|].
  split; [apply orderedb_ordered; vm_compute; reflexivity|].
  split; [vm_compute; reflexivity|].
  split; [vm_compute; reflexivity|].
  intros H%ordered_orderedb. vm_compute in H. discriminate.
Qed.

(** *** The further properties on concrete inputs *)

Lemma sample_tree_keys : keys Scenario.sample_tree = [2; 5; 8; 8; 9].
Proof. reflexivity. Qed.

Lemma sample_tree_sorted : Sorted Z.le (keys Scenario.sample_tree).
Proof. rewrite sample_tree_keys. repeat (constructor; try lia). Qed.

Lemma sample_tree_unique_sorted : Sorted Z.lt (keys Scenario.sample_tree_unique).
Proof.
  change (Sorted Z.lt [2; 5; 7; 8; 9]). repeat (constructor; try lia).
Qed.

Lemma scenario_hashFunc k :
  Cache.hashFunc Scenario.NUM_BUCKETS Reference.hashVal k = 0%nat.
Proof.
  unfold Cache.hashFunc, Scenario.NUM_BUCKETS.
  change (Z.of_nat 1) with 1. by rewrite Z.mod_1_r.
Qed.

Lemma scenario_full_elements :
  elements (Cache.bucket_at Scenario.full 0)
  = [(1, (10, 1)); (2, (20, 2)); (3, (30, 3)); (4, (40, 4))].
Proof. reflexivity. Qed.

Lemma scenario_full_stored k e :
  Scenario.stored Scenario.full k e <->
  (k, e) ∈ [(1, (10, 1)); (2, (20, 2)); (3, (30, 3)); (4, (40, 4))].
Proof.
  unfold Scenario.stored, Cache.stored.
  by rewrite scenario_hashFunc, scenario_full_elements.
Qed.

Lemma scenario_full_well_formed : Scenario.well_formed Scenario.full.
Proof.
  split; [reflexivity|]. intros i Hi.
  assert (i = 0%nat) as -> by (unfold Scenario.NUM_BUCKETS in Hi; lia). split.
  - apply strictly_ordered_sorted. unfold keys. rewrite scenario_full_elements.
    simpl. repeat (constructor; try lia).
  - unfold keys. rewrite scenario_full_elements. simpl.
    repeat (constructor; try apply scenario_hashFunc).
Qed.

Lemma func_selects {V : Type} (a b : HashTree (V * Z)) :
  func a b = a \/ func a b = b.
Proof.
  destruct a as [|ak av al ar]; [by right|].
  destruct b as [|bk bv bl br]; [by left|].
  simpl. destruct (av.2 <? bv.2); auto.
Qed.

Lemma remove_of_key_not_found_sample :
  HashTree.remove Scenario.sample_tree 3 = Scenario.sample_tree
  /\ HashTree.remove (insertNode Scenario.sample_tree 3 30) 3 = Scenario.sample_tree.
Proof.
  apply (remove_of_key_not_found Scenario.sample_tree 3 30 0). reflexivity.
Defined.

Lemma lookup_finds_every_key_sample :
  ((getVal Scenario.sample_tree 8 0).1 = true <-> 8 ∈ keys Scenario.sample_tree)
  /\ ((getVal Scenario.sample_tree 8 0).1 = false ->
      getVal Scenario.sample_tree 8 0 = (false, 0)).
Proof.
  apply (lookup_finds_every_key Scenario.sample_tree 8 0). apply sample_tree_sorted.
Defined.

Lemma inorder_keys_stay_sorted_sample :
  Sorted Z.le (keys (insertNode Scenario.sample_tree 8 82))
  /\ Sorted Z.le (keys (HashTree.remove Scenario.sample_tree 8)).
Proof.
  apply (inorder_keys_stay_sorted Scenario.sample_tree 8 82). apply sample_tree_sorted.
Defined.

Lemma remove_deletes_one_occurrence_sample :
  8 :: keys (HashTree.remove Scenario.sample_tree 8) ≡ₚ keys Scenario.sample_tree
  /\ S (count (HashTree.remove Scenario.sample_tree 8)) = count Scenario.sample_tree.
Proof.
  apply (remove_deletes_one_occurrence Scenario.sample_tree 8).
  - apply sample_tree_sorted.
  - rewrite sample_tree_keys. apply (bool_decide_unpack _). vm_compute. reflexivity.
Defined.

Lemma remove_without_repeated_keys_sample :
  Sorted Z.lt (keys (HashTree.remove Scenario.sample_tree_unique 8))
  /\ getVal (HashTree.remove Scenario.sample_tree_unique 8) 8 0 = (false, 0)
  /\ (forall k', k' <> 8 ->
        getVal (HashTree.remove Scenario.sample_tree_unique 8) k' 0
        = getVal Scenario.sample_tree_unique k' 0)
  /\ (forall e, e ∈ elements (HashTree.remove Scenario.sample_tree_unique 8) <->
                e ∈ elements Scenario.sample_tree_unique /\ e.1 <> 8).
Proof.
  apply (remove_without_repeated_keys Scenario.sample_tree_unique 8 0).
  apply sample_tree_unique_sorted.
Defined.

Lemma getSmallestNode_least_sample :
  getSmallestNode (nullptr (V:=Z)) = nullptr
  /\ exists s_key s_val s_right rest,
       getSmallestNode Scenario.sample_tree = Node s_key s_val nullptr s_right
       /\ Node s_key s_val nullptr s_right ∈ nodes Scenario.sample_tree
       /\ elements Scenario.sample_tree = (s_key, s_val) :: rest
       /\ Forall (fun y => s_key <= y) (keys Scenario.sample_tree).
Proof.
  apply (getSmallestNode_least 5 50 (Node 2 20 nullptr nullptr)
           (Node 8 80 (Node 8 81 nullptr nullptr) (Node 9 90 nullptr nullptr))).
  apply sample_tree_sorted.
Defined.

Lemma seekWithComparator_selects_node_scenario :
  seekWithComparator (Cache.bucket_at Scenario.full 0) func = nullptr
  \/ seekWithComparator (Cache.bucket_at Scenario.full 0) func
     ∈ nodes (Cache.bucket_at Scenario.full 0).
Proof.
  apply (seekWithComparator_selects_node (Cache.bucket_at Scenario.full 0) func).
  apply func_selects.
Defined.

Lemma put_below_capacity_effect_scenario :
  exists c',
    Scenario.put Scenario.init 7 70 5 = Returns (true, c')
    /\ cacheSize c' = cacheSize Scenario.init + 1
    /\ entry_count c' = S (entry_count Scenario.init)
    /\ (forall k' d,
          Scenario.get c' k' d =
          if k' =? 7
          then (if (Scenario.get Scenario.init 7 d).1
                then Scenario.get Scenario.init 7 d else (true, 70))
          else Scenario.get Scenario.init k' d).
Proof.
  apply (put_below_capacity_effect 0 Scenario.NUM_BUCKETS Scenario.CACHE_SIZE
           Reference.hashVal Scenario.init 7 70 5).
  - unfold Scenario.NUM_BUCKETS. lia.
  - reflexivity.
  - unfold Scenario.CACHE_SIZE. simpl. lia.
  - unfold Scenario.CACHE_SIZE. lia.
Defined.

Lemma remove_with_distinct_keys_scenario :
  exists c',
    Scenario.remove Scenario.full 2 = (true, c')
    /\ Scenario.well_formed c'
    /\ cacheSize c' = cacheSize Scenario.full - 1
    /\ (forall d, Scenario.get c' 2 d = (false, 0))
    /\ (forall k' d, k' <> 2 -> Scenario.get c' k' d = Scenario.get Scenario.full k' d)
    /\ (forall k' e, Scenario.stored c' k' e <-> Scenario.stored Scenario.full k' e /\ k' <> 2).
Proof.
  apply (remove_with_distinct_keys 0 Scenario.NUM_BUCKETS Reference.hashVal
           Scenario.full 2).
  - unfold Scenario.NUM_BUCKETS. lia.
  - apply scenario_full_well_formed.
  - change (cacheSize Scenario.full) with 4. lia.
Defined.

Lemma put_remove_round_trip_scenario :
  exists c',
    Scenario.put Scenario.init 7 70 5 = Returns (true, c')
    /\ Scenario.remove c' 7 = (true, Scenario.init).
Proof.
  apply (put_remove_round_trip 0 Scenario.NUM_BUCKETS Scenario.CACHE_SIZE
           Reference.hashVal Scenario.init 7 70 5 0).
  - unfold Scenario.NUM_BUCKETS. lia.
  - reflexivity.
  - unfold Scenario.CACHE_SIZE. simpl. lia.
  - unfold Scenario.CACHE_SIZE. lia.
  - reflexivity.
Defined.

Lemma removeLRU_scan_finds_a_least_entry_scenario :
  exists k e l r,
    Cache.removeLRU_scan Scenario.NUM_BUCKETS Scenario.full = Node k e l r
    /\ Scenario.stored Scenario.full k e
    /\ (forall k' e', Scenario.stored Scenario.full k' e' -> e.2 <= e'.2)
    /\ (forall k' e',
          Scenario.stored (Scenario.remove Scenario.full k).2 k' e' <->
          Scenario.stored Scenario.full k' e' /\ k' <> k)
    /\ S (entry_count (Scenario.remove Scenario.full k).2) = entry_count Scenario.full
    /\ Scenario.removeLRU Scenario.full = FlowsOffEnd.
Proof.
  apply (removeLRU_scan_finds_a_least_entry Scenario.NUM_BUCKETS Reference.hashVal
           Scenario.full).
  - unfold Scenario.NUM_BUCKETS. lia.
  - apply scenario_full_well_formed.
  - change (entry_count Scenario.full) with 4%nat. lia.
Defined.

Lemma put_at_capacity_does_not_return_scenario :
  Scenario.put Scenario.full 5 50 5 = FlowsOffEnd.
Proof.
  apply (put_at_capacity_does_not_return Scenario.NUM_BUCKETS Scenario.CACHE_SIZE
           Reference.hashVal Scenario.full 5 50 5).
  - reflexivity.
  - change (cacheSize Scenario.full) with 4. unfold Scenario.CACHE_SIZE. lia.
Defined.

Lemma run_never_dereferences_null_scenario :
  Scenario.run Scenario.init
    [Put 1 10 1; Put 2 20 2; Remove 9; Get 1; Put 3 30 3; Put 4 40 4;
     Remove 2; Put 5 50 5]
  = FlowsOffEnd
  \/ exists c,
       Scenario.run Scenario.init
         [Put 1 10 1; Put 2 20 2; Remove 9; Get 1; Put 3 30 3; Put 4 40 4;
          Remove 2; Put 5 50 5]
       = Returns c
       /\ Scenario.consistent c.
Proof.
  apply (run_never_dereferences_null Scenario.NUM_BUCKETS Scenario.CACHE_SIZE
           Reference.hashVal).
  - unfold Scenario.NUM_BUCKETS. lia.
  - unfold Scenario.CACHE_SIZE. lia.
  - simpl. lia.
Defined.

Lemma puts_return_up_to_capacity_scenario :
  Scenario.put_all Scenario.init Scenario.writes = FlowsOffEnd.
Proof.
  apply (puts_return_up_to_capacity Scenario.NUM_BUCKETS Scenario.CACHE_SIZE
           Reference.hashVal Scenario.writes).
  - unfold Scenario.NUM_BUCKETS. lia.
  - unfold Scenario.CACHE_SIZE. lia.
Defined.

Lemma second_copy_holds_one_more_entry_scenario :
  Cache.put_all_second_copy Scenario.NUM_BUCKETS Scenario.CACHE_SIZE Reference.hashVal
    Scenario.init Scenario.writes
  = Cache.put_all Scenario.NUM_BUCKETS (Scenario.CACHE_SIZE + 1) Reference.hashVal
      Scenario.init Scenario.writes
  /\ exists c,
       Cache.put_all_second_copy Scenario.NUM_BUCKETS Scenario.CACHE_SIZE
         Reference.hashVal Scenario.init Scenario.writes
       = Returns c
       /\ cacheSize c = Z.of_nat (length Scenario.writes)
       /\ entry_count c = length Scenario.writes.
Proof.
  apply (second_copy_holds_one_more_entry Scenario.NUM_BUCKETS Scenario.CACHE_SIZE
           Reference.hashVal Scenario.writes).
  - unfold Scenario.NUM_BUCKETS. lia.
  - unfold Scenario.CACHE_SIZE. lia.
Defined.

Lemma removeLRU_scan_with_repeated_keys_scenario :
  exists key e l r,
    Cache.removeLRU_scan Scenario.NUM_BUCKETS Scenario.full = Node key e l r
    /\ Scenario.stored Scenario.full key e
    /\ Forall (fun n => e.2 <= timestamp n)
              (Cache.all_nodes Scenario.NUM_BUCKETS Scenario.full)
    /\ S (entry_count (Scenario.remove Scenario.full key).2)
       = entry_count Scenario.full
    /\ Scenario.removeLRU Scenario.full = FlowsOffEnd.
Proof.
  apply (removeLRU_scan_with_repeated_keys Scenario.NUM_BUCKETS Reference.hashVal
           Scenario.full).
  - exact (proj1 (well_formed_weakly_formed _ _ _ scenario_full_well_formed)).
  - exact (proj2 (well_formed_weakly_formed _ _ _ scenario_full_well_formed)).
  - change (entry_count Scenario.full) with 4%nat. lia.
Defined.

End Runs.

